(** * mlfqsim: a three-level MLFQ scheduler simulator

    Shallow embedding of [mlfqsim.c].  The C globals ([L0], [L1], [L2],
    [next_pid]) and the standard output become one record that every
    function takes and returns.  A C [int] is a [Z] kept in the signed
    32-bit range by [wrap]; the intrusive linked queues are Rocq lists
    (head of the list = head of the queue); a C string is a [string] whose
    end plays the terminating NUL.  [calloc] is taken to succeed.

    Signed overflow is undefined in C.  It can happen in two places: in
    the loader's [ms*10 + digit] for an amount above [INT_MAX], and in
    [next_pid++] after [INT_MAX] processes.  [wrap] gives those places a
    value so that the functions are total, but that value is not the
    program's: what depends on it is stated under [amounts_fit] (no amount
    above [INT_MAX]) and under a bound on the length of the command line
    (no more than [INT_MAX] processes). *)

From Stdlib Require Import ZArith List String Ascii Bool Lia Permutation.
From Stdlib Require Import DecimalString DecimalPos.
Import ListNotations.

#[local] Open Scope string_scope.
#[local] Open Scope list_scope.
#[local] Open Scope Z_scope.

(** ** Machine integers *)

Definition INT_MIN : Z := - 2147483648.
Definition INT_MAX : Z := 2147483647.

(** Two's-complement wrap-around of a C [int]. *)
Definition wrap (z : Z) : Z := (z + 2147483648) mod 4294967296 - 2147483648.

(** ** Constants of the simulator *)

Definition TICK_MS : Z := 10.
Definition Q_L0 : Z := 1.
Definition Q_L1 : Z := 2.
Definition Q_L2 : Z := 4.

(** ** Processes, queues and the trace *)

Record proc : Type := mkProc {
  pid : Z;
  name : string;
  work_left : Z;
  ticks_left : Z;
  level : Z
}.

Definition queue_t : Type := list proc.

(** One [printf] call, with the arguments it was given. *)
Inductive event : Type :=
| EvRun (nm : string) (p ms lvl : Z)
| EvExit (nm : string) (p : Z)
| EvIdle (ms : Z).

(** Globals of the translation unit, and what was printed so far. *)
Record sched : Type := mkSched {
  L0 : queue_t;
  L1 : queue_t;
  L2 : queue_t;
  next_pid : Z;
  out : list event
}.

Definition init_sched : sched := mkSched [] [] [] 1 [].

Definition set_L0 (q : queue_t) (s : sched) : sched :=
  mkSched q (L1 s) (L2 s) (next_pid s) (out s).
Definition set_L1 (q : queue_t) (s : sched) : sched :=
  mkSched (L0 s) q (L2 s) (next_pid s) (out s).
Definition set_L2 (q : queue_t) (s : sched) : sched :=
  mkSched (L0 s) (L1 s) q (next_pid s) (out s).
Definition set_next_pid (n : Z) (s : sched) : sched :=
  mkSched (L0 s) (L1 s) (L2 s) n (out s).
Definition printf (e : event) (s : sched) : sched :=
  mkSched (L0 s) (L1 s) (L2 s) (next_pid s) (out s ++ [e]).

Definition set_ticks_left (t : Z) (p : proc) : proc :=
  mkProc (pid p) (name p) (work_left p) t (level p).
Definition set_level (l : Z) (p : proc) : proc :=
  mkProc (pid p) (name p) (work_left p) (ticks_left p) l.

(** ** Text of the trace *)

Definition nl : string := String (ascii_of_nat 10) EmptyString.

(** [%d] *)
Definition dec (z : Z) : string := NilZero.string_of_int (Z.to_int z).

Definition render (e : event) : string :=
  match e with
  | EvRun nm p ms lvl =>
      ("Process " ++ nm ++ " " ++ dec p ++ " has consumed " ++ dec ms
         ++ " ms in L" ++ dec lvl ++ nl)%string
  | EvExit nm p => ("Process " ++ nm ++ " " ++ dec p ++ " EXIT" ++ nl)%string
  | EvIdle ms =>
      ("Process idle 0 has consumed " ++ dec ms ++ " ms in IDLE" ++ nl)%string
  end.

Definition stdout (s : sched) : string :=
  String.concat EmptyString (map render (out s)).

(** ** Queues *)

Definition q_push (q : queue_t) (p : proc) : queue_t := q ++ [p].

Definition q_pop (q : queue_t) : option (proc * queue_t) :=
  match q with
  | [] => None
  | p :: q' => Some (p, q')
  end.

(** ** Process creation *)

(** [snprintf(p->name, 32, "%s", name)]: at most 31 characters are kept. *)
Definition snprintf32 (s : string) : string := substring 0 31 s.

Definition new_proc (nm : string) (ms : Z) (s : sched) : sched :=
  let p := mkProc (next_pid s) (snprintf32 nm) ms Q_L0 0 in
  set_L0 (q_push (L0 s) p) (set_next_pid (wrap (next_pid s + 1)) s).

(** ** One tick *)

Definition on_tick (p : proc) : proc :=
  mkProc (pid p) (name p) (wrap (work_left p - TICK_MS))
         (wrap (ticks_left p - 1)) (level p).

Definition on_tick_line (p : proc) : event :=
  EvRun (name p) (pid p) TICK_MS (level p).

Definition proc_exit_line (p : proc) : event := EvExit (name p) (pid p).

(** [p->ticks_left = p->ticks_left ? p->ticks_left : q] *)
Definition guard (q : Z) (p : proc) : proc :=
  if ticks_left p =? 0 then set_ticks_left q p else p.

(** Step 1 of [schedule_one_tick]: the process popped, before the guard
    has looked at it, the queue it came from and the globals without it. *)
Definition pick (s : sched) : option (proc * Z * sched) :=
  match q_pop (L0 s) with
  | Some (p, q) => Some (p, 0, set_L0 q s)
  | None =>
      match q_pop (L1 s) with
      | Some (p, q) => Some (p, 1, set_L1 q s)
      | None =>
          match q_pop (L2 s) with
          | Some (p, q) => Some (p, 2, set_L2 q s)
          | None => None
          end
      end
  end.

Definition quantum_of (qid : Z) : Z :=
  if qid =? 0 then Q_L0 else if qid =? 1 then Q_L1 else Q_L2.

(** Step 1 with the guard applied, as the three branches do. *)
Definition select (s : sched) : option (proc * Z * sched) :=
  match pick s with
  | Some (p, qid, s') => Some (guard (quantum_of qid) p, qid, s')
  | None => None
  end.

(** The round-robin and demotion tail of [schedule_one_tick]. *)
Definition requeue (qid : Z) (p : proc) (s : sched) : sched :=
  if qid =? 0 then
    if ticks_left p >? 0 then set_L0 (q_push (L0 s) p) s
    else
      let p' := set_ticks_left Q_L1 (set_level 1 p) in
      set_L1 (q_push (L1 s) p') s
  else if qid =? 1 then
    if ticks_left p >? 0 then set_L1 (q_push (L1 s) p) s
    else
      let p' := set_ticks_left Q_L2 (set_level 2 p) in
      set_L2 (q_push (L2 s) p') s
  else
    if ticks_left p >? 0 then set_L2 (q_push (L2 s) p) s
    else set_L2 (q_push (L2 s) (set_ticks_left Q_L2 p)) s.

Definition schedule_one_tick (s : sched) : sched :=
  match select s with
  | None => printf (EvIdle TICK_MS) s
  | Some (p, qid, s1) =>
      let p1 := on_tick p in
      let s2 := printf (on_tick_line p1) s1 in
      if work_left p1 <=? 0 then printf (proc_exit_line p1) s2
      else requeue qid p1 s2
  end.

(** ** The workload loader *)

Definition tab : ascii := ascii_of_nat 9.

(** [c==' '||c=='\t'||c==';'||c=='&'] *)
Definition is_sep (c : ascii) : bool :=
  (c =? " ")%char || (c =? tab)%char || (c =? ";")%char || (c =? "&")%char.

(** [c==' '||c=='\t'] *)
Definition is_blank (c : ascii) : bool := (c =? " ")%char || (c =? tab)%char.

(** [c>='0'&&c<='9'] *)
Definition is_digit (c : ascii) : bool :=
  (48 <=? nat_of_ascii c)%nat && (nat_of_ascii c <=? 57)%nat.

(** [c - '0'] *)
Definition digit_val (c : ascii) : Z := Z.of_nat (nat_of_ascii c) - 48.

(** [strncmp(s,"spin",4)==0] *)
Definition is_spin (s : string) : bool := String.prefix "spin" s.

(** [s += n], for an [n] that stays inside the string. *)
Fixpoint advance (n : nat) (s : string) : string :=
  match n, s with
  | S n', String _ r => advance n' r
  | _, _ => s
  end.

(** [while(is_sep( *s)) s++] *)
Fixpoint skip_seps (s : string) : string :=
  match s with
  | String c r => if is_sep c then skip_seps r else s
  | EmptyString => s
  end.

(** [while(is_blank( *s)) s++] *)
Fixpoint skip_blanks (s : string) : string :=
  match s with
  | String c r => if is_blank c then skip_blanks r else s
  | EmptyString => s
  end.

(** [while(is_digit( *s)) { ms = ms*10 + ( *s-'0'); s++; }].  An amount
    above [INT_MAX] overflows the [int]: undefined in C.  The wrapped value
    computed here for such an amount stands for no particular build, and
    the lines with such amounts are excluded by [amounts_fit] wherever the
    amount matters. *)
Fixpoint parse_int (ms : Z) (s : string) : Z * string :=
  match s with
  | String c r =>
      if is_digit c then parse_int (wrap (ms * 10 + digit_val c)) r
      else (ms, s)
  | EmptyString => (ms, s)
  end.

(** [while( *s && *s!=';') s++] *)
Fixpoint skip_to_semi (s : string) : string :=
  match s with
  | String c r => if (c =? ";")%char then s else skip_to_semi r
  | EmptyString => s
  end.

(** [if( *s==';') s++] *)
Definition skip_semi (s : string) : string :=
  match s with
  | String c r => if (c =? ";")%char then r else s
  | EmptyString => s
  end.

(** The command of one round of the outer loop, from its first character
    that is not a separator: the globals after it and the rest of the
    text.  [ms>0] is tested on what [parse_int] returns; for an amount
    above [INT_MAX] that value, and so the outcome of the test, is not
    the program's (see [parse_int] and [amounts_fit]). *)
Definition spin_command (s : string) (st : sched) : string * sched :=
  if is_spin s then
    let (ms, s') := parse_int 0 (skip_blanks (advance 4 s)) in
    (s', if ms >? 0 then new_proc "spin" ms st else st)
  else (s, st).

(** The outer [while( *s)] loop; [None] when the rounds allowed are used
    up before the text is. *)
Fixpoint userinit_spin_loop (fuel : nat) (s : string) (st : sched)
  : option sched :=
  match s with
  | EmptyString => Some st
  | String _ _ =>
      match skip_seps s with
      | EmptyString => Some st
      | String _ _ as s1 =>
          match fuel with
          | O => None
          | S fuel' =>
              let (s2, st') := spin_command s1 st in
              userinit_spin_loop fuel' (skip_semi (skip_to_semi s2)) st'
          end
      end
  end.

(** Every round consumes a character, so the length of the text is
    enough rounds. *)
Definition userinit_spin (cmd : string) (st : sched) : option sched :=
  userinit_spin_loop (String.length cmd) cmd st.

(** ** The tick driver *)

(** The locals of [main] next to the globals. *)
Record mstate : Type := mkM {
  sys : sched;
  idle : Z;
  ticks : Z
}.

Inductive outcome : Type :=
| Continue (m : mstate)
| Break (m : mstate).

Definition all_empty (s : sched) : bool :=
  match L0 s, L1 s, L2 s with
  | [], [], [] => true
  | _, _, _ => false
  end.

Definition TICK_CAP : Z := 100000.
Definition IDLE_CAP : Z := 10.

(** The body of [while(1)]. *)
Definition main_iter (m : mstate) : outcome :=
  if ticks m >? TICK_CAP then Break m
  else if all_empty (sys m) then
    let idle' := wrap (idle m + 1) in
    let ticks' := wrap (ticks m + 1) in
    if idle' >? IDLE_CAP then Break (mkM (sys m) idle' ticks')
    else Continue (mkM (printf (EvIdle TICK_MS) (sys m)) idle' ticks')
  else
    Continue (mkM (schedule_one_tick (sys m)) 0 (wrap (ticks m + 1))).

Fixpoint main_loop (fuel : nat) (m : mstate) : option mstate :=
  match fuel with
  | O => None
  | S fuel' =>
      match main_iter m with
      | Break m' => Some m'
      | Continue m' => main_loop fuel' m'
      end
  end.

Definition default_cmdline : string :=
  "spin 10000 &; spin 200000 &; spin 3000000 &;".

(** [argv[1]] when there is one. *)
Definition cmdline_of (arg : option string) : string :=
  match arg with
  | Some a => a
  | None => default_cmdline
  end.

Definition boot (cmd : string) : option mstate :=
  match userinit_spin cmd init_sched with
  | Some st => Some (mkM st 0 0)
  | None => None
  end.

(** Rounds of the driver that are always enough: [TICK_CAP + 2]. *)
Definition MAIN_FUEL : nat := Z.to_nat (TICK_CAP + 2).

Definition main (arg : option string) : option mstate :=
  match boot (cmdline_of arg) with
  | Some m => main_loop MAIN_FUEL m
  | None => None
  end.

(** ** Runs of the program *)

(** The state in which the driver starts its round number [n] (from 0),
    when it gets that far. *)
Fixpoint state_at (cmd : string) (n : nat) : option mstate :=
  match n with
  | O => boot cmd
  | S n' =>
      match state_at cmd n' with
      | Some m =>
          match main_iter m with
          | Continue m' => Some m'
          | Break _ => None
          end
      | None => None
      end
  end.

Definition queue_at (l : Z) (s : sched) : queue_t :=
  if l =? 0 then L0 s else if l =? 1 then L1 s else L2 s.

Definition residents (s : sched) : list proc := L0 s ++ L1 s ++ L2 s.

Definition event_pid (e : event) : option Z :=
  match e with
  | EvRun _ p _ _ => Some p
  | EvExit _ p => Some p
  | EvIdle _ => None
  end.

(** ** Invariants *)

Definition resident_ok (qid : Z) (p : proc) : Prop :=
  level p = qid /\ 1 <= ticks_left p <= quantum_of qid
  /\ 0 < work_left p <= INT_MAX.

Definition wf (s : sched) : Prop :=
  Forall (resident_ok 0) (L0 s) /\ Forall (resident_ok 1) (L1 s)
  /\ Forall (resident_ok 2) (L2 s).

(** What the loader keeps true of the globals. *)
Definition loaded (st : sched) : Prop :=
  wf st /\ L1 st = [] /\ L2 st = [] /\ out st = [].

Definition run_inv (n : nat) (m : mstate) : Prop :=
  wf (sys m) /\ ticks m = Z.of_nat n /\ 0 <= idle m <= IDLE_CAP
  /\ Z.of_nat n <= TICK_CAP + 1.

Definition pids (s : sched) : list Z := map pid (residents s).

(** Process identifiers in use are distinct and below the allocator. *)
Definition pid_inv (st : sched) : Prop :=
  NoDup (pids st) /\ Forall (fun x => 1 <= x < next_pid st) (pids st)
  /\ 1 <= next_pid st <= INT_MAX.

(** [s'] comes after [s]: its processes are processes of [s], at the
    same or a later level, and what was printed in between names
    processes of [s] only. *)
Definition descends (s s' : sched) : Prop :=
  (forall q, In q (residents s') ->
     exists p, In p (residents s) /\ pid p = pid q
               /\ level p <= level q /\ (level p = 2 -> level q = 2))
  /\ exists evs, out s' = out s ++ evs
       /\ forall e x, In e evs -> event_pid e = Some x -> In x (pids s).

(** ** The loader, command by command *)

(** The text up to the first [;] and the text after it. *)
Fixpoint first_command (s : string) : string :=
  match s with
  | EmptyString => EmptyString
  | String c r => if (c =? ";")%char then EmptyString
                  else String c (first_command r)
  end.

Definition after_semi (s : string) : string := skip_semi (skip_to_semi s).

(** The commands of a line: the pieces between its [;]. *)
Fixpoint split_semi (s : string) : list string :=
  match s with
  | EmptyString => [EmptyString]
  | String c r =>
      if (c =? ";")%char then EmptyString :: split_semi r
      else match split_semi r with
           | h :: t => String c h :: t
           | [] => [String c EmptyString]
           end
  end.

(** What one round of the loader makes of a command, in the loader's own
    32-bit arithmetic ([parse_int]); a device of the proofs.  It is the
    work the command asks for, [command_work] below, whenever the amount
    fits an [int]. *)
Definition wrapped_work (c : string) : option Z :=
  let s := skip_seps c in
  if is_spin s then
    let ms := fst (parse_int 0 (skip_blanks (advance 4 s))) in
    if ms >? 0 then Some ms else None
  else None.

Definition wrapped_command (st : sched) (c : string) : sched :=
  match wrapped_work c with
  | Some ms => new_proc "spin" ms st
  | None => st
  end.

Definition wrapped_commands (cmd : string) (st : sched) : sched :=
  fold_left wrapped_command (split_semi cmd) st.

(** The decimal value of the digits at the start of [s], read onto
    [acc], as a number: no machine arithmetic. *)
Fixpoint parse_amount (acc : Z) (s : string) : Z :=
  match s with
  | String c r =>
      if is_digit c then parse_amount (acc * 10 + digit_val c) r else acc
  | EmptyString => acc
  end.

(** The work a command asks for: its first word must be [spin], and the
    digits after it must make a positive amount. *)
Definition command_work (c : string) : option Z :=
  let s := skip_seps c in
  if is_spin s then
    let ms := parse_amount 0 (skip_blanks (advance 4 s)) in
    if ms >? 0 then Some ms else None
  else None.

Definition load_command (st : sched) (c : string) : sched :=
  match command_work c with
  | Some ms => new_proc "spin" ms st
  | None => st
  end.

Definition load_commands (cmd : string) (st : sched) : sched :=
  fold_left load_command (split_semi cmd) st.

(** The amount of a [spin] command is at most [INT_MAX]. *)
Definition command_fits (c : string) : bool :=
  let s := skip_seps c in
  if is_spin s then
    parse_amount 0 (skip_blanks (advance 4 s)) <=? INT_MAX
  else true.

(** No amount on the line overflows an [int] while the loader reads it:
    every [spin] command asks for at most [INT_MAX].  Past that,
    [ms*10 + digit] overflows a signed [int], which C leaves undefined;
    what is said about amounts, about [work_left] and about exits is said
    of the lines that pass this test. *)
Definition amounts_fit (cmd : string) : bool :=
  forallb command_fits (split_semi cmd).

(** The digits of [d] read from the left onto [acc]. *)
Fixpoint uint_val (acc : Z) (d : Decimal.uint) : Z :=
  match d with
  | Decimal.Nil => acc
  | Decimal.D0 d' => uint_val (acc * 10 + 0) d'
  | Decimal.D1 d' => uint_val (acc * 10 + 1) d'
  | Decimal.D2 d' => uint_val (acc * 10 + 2) d'
  | Decimal.D3 d' => uint_val (acc * 10 + 3) d'
  | Decimal.D4 d' => uint_val (acc * 10 + 4) d'
  | Decimal.D5 d' => uint_val (acc * 10 + 5) d'
  | Decimal.D6 d' => uint_val (acc * 10 + 6) d'
  | Decimal.D7 d' => uint_val (acc * 10 + 7) d'
  | Decimal.D8 d' => uint_val (acc * 10 + 8) d'
  | Decimal.D9 d' => uint_val (acc * 10 + 9) d'
  end.

(** The next character, if any, is not a digit. *)
Definition no_digit_ahead (s : string) : Prop :=
  match s with
  | EmptyString => True
  | String c _ => is_digit c = false
  end.

(** A command line in the documented form, one [spin n &;] per amount. *)
Fixpoint workload (ns : list Z) : string :=
  match ns with
  | [] => EmptyString
  | n :: r => ("spin " ++ dec n ++ " &; " ++ workload r)%string
  end.

(** ** Sample runs *)

(** Scenario A of the specification: work of 10, 20 and 40 ms. *)
Definition scenario_a : string := "spin 10 &; spin 20 &; spin 40 &;".

Definition scenario_a_boot : mstate :=
  mkM (mkSched [mkProc 1 "spin" 10 1 0; mkProc 2 "spin" 20 1 0;
                mkProc 3 "spin" 40 1 0] [] [] 4 []) 0 0.

(** One process that needs ten ticks. *)
Definition single_cmd : string := "spin 100;".

Definition single_boot : mstate :=
  mkM (mkSched [mkProc 1 "spin" 100 1 0] [] [] 2 []) 0 0.

(** The driver after ten idle rounds on an empty command line. *)
Definition quiet_10 : mstate :=
  mkM (mkSched [] [] [] 1 (repeat (EvIdle TICK_MS) 10)) 10 10.

(** A command line in which the loader finds nothing to run. *)
Definition noise_cmd : string := "run 5; spin x; & ;".

(** Scenario A after its first round: process 1 has run and exited. *)
Definition scenario_a_1 : mstate :=
  mkM (mkSched [mkProc 2 "spin" 20 1 0; mkProc 3 "spin" 40 1 0] [] [] 4
               [EvRun "spin" 1 10 0; EvExit "spin" 1]) 0 1.

(** The single process after its first round: demoted to level 1. *)
Definition single_1 : mstate :=
  mkM (mkSched [] [mkProc 1 "spin" 90 2 1] [] 2 [EvRun "spin" 1 10 0]) 0 1.

(** ** The queues as the C code stores them

    [q_push] and [q_pop] work on an intrusive singly linked list: the
    [next] field of every [struct proc] and the [head] and [tail] pointers
    of the queue.  A process is named by its address, a [nat]; a pointer
    is an [option], [None] for [NULL]. *)

Module Intrusive.

Definition ptr : Type := option nat.

Record queue_t : Type := mkQ { head : ptr; tail : ptr }.

(** The [next] field of every process. *)
Definition links : Type := nat -> ptr.

(** [p->next = v] *)
Definition set_next (nx : links) (p : nat) (v : ptr) : links :=
  fun a => if Nat.eqb a p then v else nx a.

(** The zero-initialised queue. *)
Definition empty : queue_t := mkQ None None.

(** [q_push]; [None] when [q->tail] is dereferenced while [NULL]. *)
Definition q_push (nx : links) (q : queue_t) (p : nat)
  : option (links * queue_t) :=
  let nx1 := set_next nx p None in
  match head q with
  | None => Some (nx1, mkQ (Some p) (Some p))
  | Some _ =>
      match tail q with
      | Some t => Some (set_next nx1 t (Some p), mkQ (head q) (Some p))
      | None => None
      end
  end.

(** [q_pop]: the links and the queue afterwards, and the pointer
    returned. *)
Definition q_pop (nx : links) (q : queue_t) : links * queue_t * ptr :=
  match head q with
  | None => (nx, q, None)
  | Some p =>
      let h := nx p in
      let t := match h with None => None | Some _ => tail q end in
      (set_next nx p None, mkQ h t, Some p)
  end.

(** Following [next] from [h] visits exactly [l] and then [NULL]. *)
Fixpoint chain (nx : links) (h : ptr) (l : list nat) : Prop :=
  match l with
  | [] => h = None
  | a :: l' => h = Some a /\ chain nx (nx a) l'
  end.

Definition last_ptr (l : list nat) : ptr :=
  match l with
  | [] => None
  | _ :: _ => Some (last l O)
  end.

(** The queue [q] holds the processes [l], head first. *)
Definition repr (nx : links) (q : queue_t) (l : list nat) : Prop :=
  chain nx (head q) l /\ NoDup l /\ tail q = last_ptr l.

(** Push every process of [ps], in order. *)
Fixpoint fill (nx : links) (q : queue_t) (ps : list nat)
  : option (links * queue_t) :=
  match ps with
  | [] => Some (nx, q)
  | p :: r =>
      match q_push nx q p with
      | Some (nx', q') => fill nx' q' r
      | None => None
      end
  end.

(** Pop up to [n] times, stopping at the first [NULL]. *)
Fixpoint drain (n : nat) (nx : links) (q : queue_t)
  : list nat * (links * queue_t) :=
  match n with
  | O => ([], (nx, q))
  | S n' =>
      match q_pop nx q with
      | (nx', q', Some a) =>
          let (l, r) := drain n' nx' q' in (a :: l, r)
      | (nx', q', None) => ([], (nx', q'))
      end
  end.

End Intrusive.

(** No process linked to any other. *)
Definition no_links : Intrusive.links := fun _ => None.

(** ** Measures on states and traces *)

(** The ticks a process still needs: its work, in ticks, rounded up. *)
Definition ticks_needed (p : proc) : Z :=
  (work_left p + (TICK_MS - 1)) / TICK_MS.

Definition total_need (s : sched) : Z :=
  fold_right Z.add 0 (map ticks_needed (residents s)).

Definition is_run (e : event) : bool :=
  match e with EvRun _ _ _ _ => true | _ => false end.
Definition is_exit (e : event) : bool :=
  match e with EvExit _ _ => true | _ => false end.
Definition is_idle (e : event) : bool :=
  match e with EvIdle _ => true | _ => false end.

Definition count_ev (f : event -> bool) (l : list event) : nat :=
  List.length (filter f l).

(** A workload that needs more ticks than the cap allows: the default
    command line, as the loader leaves it. *)
Definition default_boot : mstate :=
  mkM (mkSched [mkProc 1 "spin" 10000 1 0; mkProc 2 "spin" 200000 1 0;
                mkProc 3 "spin" 3000000 1 0] [] [] 4 []) 0 0.

(** Every character of [s] passes [f]. *)
Fixpoint all_chars (f : ascii -> bool) (s : string) : bool :=
  match s with
  | EmptyString => true
  | String c r => f c && all_chars f r
  end.

(** [k] identifiers in a row from [start]. *)
Fixpoint pid_seq (start : Z) (k : nat) : list Z :=
  match k with
  | O => []
  | S k' => start :: pid_seq (start + 1) k'
  end.

(** ** The O(1) skeleton, as shipped

    [o1sim_skeleton.c] with its exercises not done: [q_push] stores
    nothing, [q_pop] returns [NULL], [maybe_swap_queues] and
    [schedule_one_tick] have empty bodies.  The loader and the driver are
    written out. *)

Module O1.

Definition FQ_Q : Z := 1.
Definition AQ_Q : Z := 3.
Definition EQ_Q : Z := 3.

Record proc : Type := mkProc {
  pid : Z;
  name : string;
  work_left : Z;
  ticks_left : Z;
  in_queue : option string
}.

Record sched : Type := mkSched {
  FQ : list proc;
  AQ : list proc;
  EQ : list proc;
  next_pid : Z;
  out : list event
}.

Definition init_sched : sched := mkSched [] [] [] 1 [].

(** The body holds only a comment. *)
Definition q_push (q : list proc) (p : proc) : list proc := q.

(** The body is [return NULL]. *)
Definition q_pop (q : list proc) : option (proc * list proc) := None.

Definition new_proc (nm : string) (work_ms : Z) (s : sched) : sched :=
  let p := mkProc (next_pid s) (snprintf32 nm) work_ms FQ_Q (Some "FQ") in
  mkSched (q_push (FQ s) p) (AQ s) (EQ s) (wrap (next_pid s + 1)) (out s).

Definition spin_command (s : string) (st : sched) : string * sched :=
  if is_spin s then
    let (ms, s') := parse_int 0 (skip_blanks (advance 4 s)) in
    (s', if ms >? 0 then new_proc "spin" ms st else st)
  else (s, st).

Fixpoint userinit_spin_loop (fuel : nat) (s : string) (st : sched)
  : option sched :=
  match s with
  | EmptyString => Some st
  | String _ _ =>
      match skip_seps s with
      | EmptyString => Some st
      | String _ _ as s1 =>
          match fuel with
          | O => None
          | S fuel' =>
              let (s2, st') := spin_command s1 st in
              userinit_spin_loop fuel' (skip_semi (skip_to_semi s2)) st'
          end
      end
  end.

Definition userinit_spin (cmd : string) (st : sched) : option sched :=
  userinit_spin_loop (String.length cmd) cmd st.

Definition maybe_swap_queues (s : sched) : sched := s.

Definition schedule_one_tick (s : sched) : sched := s.

Record mstate : Type := mkM {
  sys : sched;
  idle_ticks : Z;
  total_ticks : Z
}.

Inductive outcome : Type :=
| Continue (m : mstate)
| Break (m : mstate).

Definition all_empty (s : sched) : bool :=
  match FQ s, AQ s, EQ s with
  | [], [], [] => true
  | _, _, _ => false
  end.

Definition print_idle (s : sched) : sched :=
  mkSched (FQ s) (AQ s) (EQ s) (next_pid s) (out s ++ [EvIdle TICK_MS]).

Definition main_iter (m : mstate) : outcome :=
  if total_ticks m >? 100000 then Break m
  else if all_empty (sys m) then
    let idle' := wrap (idle_ticks m + 1) in
    let total' := wrap (total_ticks m + 1) in
    if idle' >? 10 then Break (mkM (sys m) idle' total')
    else Continue (mkM (print_idle (sys m)) idle' total')
  else
    Continue (mkM (schedule_one_tick (maybe_swap_queues (sys m)))
                  0 (wrap (total_ticks m + 1))).

Fixpoint main_loop (fuel : nat) (m : mstate) : option mstate :=
  match fuel with
  | O => None
  | S fuel' =>
      match main_iter m with
      | Break m' => Some m'
      | Continue m' => main_loop fuel' m'
      end
  end.

Definition main (arg : option string) : option mstate :=
  match userinit_spin (cmdline_of arg) init_sched with
  | Some st => main_loop MAIN_FUEL (mkM st 0 0)
  | None => None
  end.

End O1.

(** ** Ticks a process was given at a level *)

Definition ev_match (x l : Z) (e : event) : bool :=
  match e with
  | EvRun _ p _ lv => (p =? x) && (lv =? l)
  | _ => false
  end.

(** The run lines of process [x] at level [l]. *)
Definition runs_at (x l : Z) (evs : list event) : Z :=
  Z.of_nat (count_ev (ev_match x l) evs).

(** What a queued process has used of the quanta of levels 0 and 1. *)
Definition quota_inv (s : sched) : Prop :=
  (forall p, In p (residents s) ->
     runs_at (pid p) 0 (out s) = (if level p =? 0 then 0 else Q_L0)
     /\ runs_at (pid p) 1 (out s)
        = (if level p =? 0 then 0
           else if level p =? 1 then Q_L1 - ticks_left p else Q_L1))
  /\ forall x, runs_at x 0 (out s) <= Q_L0 /\ runs_at x 1 (out s) <= Q_L1.

(** A trace line the visualizer can expect from a run whose allocator
    stands at [np]. *)
Definition line_ok (np : Z) (e : event) : Prop :=
  match e with
  | EvRun nm p ms l =>
      nm = "spin" /\ 1 <= p < np /\ ms = TICK_MS /\ 0 <= l <= 2
  | EvExit nm p => nm = "spin" /\ 1 <= p < np
  | EvIdle ms => ms = TICK_MS
  end.

Definition proc_named (np : Z) (p : proc) : Prop :=
  name p = "spin" /\ 1 <= pid p < np.

(** A line whose commands are not all [spin] commands with an amount. *)
Definition mixed_cmd : string := "spin 10 &; run 5; spin 0; spin 20".

(** Process 3 linked to process 5: the links of a queue that holds
    3 and then 5, and of a second queue that holds 7 alone. *)
Definition links_3_5 : Intrusive.links :=
  fun a => if Nat.eqb a 3 then Some 5%nat else None.

Definition queue_3_5 : Intrusive.queue_t :=
  Intrusive.mkQ (Some 3%nat) (Some 5%nat).

Definition queue_7 : Intrusive.queue_t :=
  Intrusive.mkQ (Some 7%nat) (Some 7%nat).

(** Scenario A after two rounds: process 1 gone, process 2 demoted,
    process 3 still at level 0. *)
Definition scenario_a_2 : mstate :=
  mkM (mkSched [mkProc 3 "spin" 40 1 0] [mkProc 2 "spin" 10 2 1] [] 4
               [EvRun "spin" 1 10 0; EvExit "spin" 1; EvRun "spin" 2 10 0])
      0 2.

(** Scenario A after nine rounds: all work done, two idle rounds. *)
Definition scenario_a_9 : mstate :=
  mkM (mkSched [] [] [] 4
               [EvRun "spin" 1 10 0; EvExit "spin" 1;
                EvRun "spin" 2 10 0;
                EvRun "spin" 3 10 0;
                EvRun "spin" 2 10 1; EvExit "spin" 2;
                EvRun "spin" 3 10 1;
                EvRun "spin" 3 10 1;
                EvRun "spin" 3 10 2; EvExit "spin" 3;
                EvIdle 10; EvIdle 10])
      2 9.

(** * Properties *)

(** ** The invariant of the run queues *)

Lemma wrap_id (z : Z) : INT_MIN <= z <= INT_MAX -> wrap z = z.
Proof.
  unfold INT_MIN, INT_MAX, wrap. intros H.
  rewrite Z.mod_small; lia.
Qed.

Lemma wrap_range (z : Z) : INT_MIN <= wrap z <= INT_MAX.
Proof.
  unfold INT_MIN, INT_MAX, wrap.
  pose proof (Z.mod_pos_bound (z + 2147483648) 4294967296). lia.
Qed.

Lemma quantum_of_bounds (qid : Z) : 1 <= quantum_of qid <= 4.
Proof.
  unfold quantum_of, Q_L0, Q_L1, Q_L2.
  destruct (qid =? 0); [lia|]. destruct (qid =? 1); lia.
Qed.

Lemma on_tick_ok (qid : Z) (p : proc) :
  resident_ok qid p ->
  on_tick p = mkProc (pid p) (name p) (work_left p - TICK_MS)
                     (ticks_left p - 1) (level p).
Proof.
  intros (_ & Ht & Hw). pose proof (quantum_of_bounds qid).
  unfold on_tick.
  rewrite !wrap_id; [reflexivity | |];
    unfold INT_MIN, INT_MAX, TICK_MS in *; lia.
Qed.

Lemma guard_ok (qid : Z) (p : proc) :
  resident_ok qid p -> guard (quantum_of qid) p = p.
Proof.
  intros (_ & Ht & _). unfold guard.
  destruct (Z.eqb_spec (ticks_left p) 0); [lia | reflexivity].
Qed.

(** What [pick] returns, queue by queue. *)
Lemma pick_cases (s : sched) (p : proc) (qid : Z) (s1 : sched) :
  pick s = Some (p, qid, s1) ->
  next_pid s1 = next_pid s /\ out s1 = out s /\
  ((qid = 0 /\ L0 s = p :: L0 s1 /\ L1 s1 = L1 s /\ L2 s1 = L2 s)
   \/ (qid = 1 /\ L0 s = [] /\ L0 s1 = [] /\ L1 s = p :: L1 s1
       /\ L2 s1 = L2 s)
   \/ (qid = 2 /\ L0 s = [] /\ L0 s1 = [] /\ L1 s = [] /\ L1 s1 = []
       /\ L2 s = p :: L2 s1)).
Proof.
  unfold pick, q_pop. intros H.
  destruct (L0 s) as [|a0 q0] eqn:E0.
  - destruct (L1 s) as [|a1 q1] eqn:E1.
    + destruct (L2 s) as [|a2 q2] eqn:E2; [discriminate|].
      inversion H; subst; cbn. rewrite E0, E1. intuition.
    + inversion H; subst; cbn. rewrite E0. intuition.
  - inversion H; subst; cbn. intuition.
Qed.

Lemma pick_none (s : sched) : pick s = None <-> all_empty s = true.
Proof.
  unfold pick, q_pop, all_empty.
  destruct (L0 s), (L1 s), (L2 s); split; intros; congruence.
Qed.

Lemma pick_resident_ok (s : sched) (p : proc) (qid : Z) (s1 : sched) :
  wf s -> pick s = Some (p, qid, s1) -> resident_ok qid p /\ wf s1.
Proof.
  intros (W0 & W1 & W2) H. apply pick_cases in H.
  destruct H as (_ & _ & [(-> & E0 & E1 & E2) | [(-> & E0 & E0' & E1 & E2)
                        | (-> & E0 & E0' & E1 & E1' & E2)]]); unfold wf.
  - rewrite E0 in W0. inversion W0; subst. rewrite E1, E2. auto.
  - rewrite E1 in W1. inversion W1; subst. rewrite E0', E2. auto.
  - rewrite E2 in W2. inversion W2; subst. rewrite E0', E1'. auto.
Qed.

(** [schedule_one_tick] on a well-formed state, with the arithmetic done. *)
Lemma schedule_one_tick_wf_eq (s : sched) (p : proc) (qid : Z) (s1 : sched) :
  wf s -> pick s = Some (p, qid, s1) ->
  let p1 := mkProc (pid p) (name p) (work_left p - TICK_MS)
                   (ticks_left p - 1) (level p) in
  schedule_one_tick s =
    if work_left p <=? TICK_MS
    then printf (proc_exit_line p) (printf (on_tick_line p) s1)
    else requeue qid p1 (printf (on_tick_line p) s1).
Proof.
  intros W H p1. destruct (pick_resident_ok _ _ _ _ W H) as (Hp & _).
  unfold schedule_one_tick, select. rewrite H.
  rewrite (guard_ok _ _ Hp), (on_tick_ok _ _ Hp). fold p1.
  change (work_left p1) with (work_left p - TICK_MS).
  destruct (Z.leb_spec (work_left p - TICK_MS) 0);
    destruct (Z.leb_spec (work_left p) TICK_MS); try lia; reflexivity.
Qed.

Lemma Forall_snoc {A} (P : A -> Prop) (l : list A) (x : A) :
  Forall P l -> P x -> Forall P (l ++ [x]).
Proof. intros. apply Forall_app. auto. Qed.

Lemma wf_printf (e : event) (s : sched) : wf s -> wf (printf e s).
Proof. intros W. exact W. Qed.

Lemma wf_requeue (qid : Z) (p : proc) (s : sched) :
  wf s -> 0 <= qid <= 2 ->
  level p = qid -> 0 <= ticks_left p <= quantum_of qid ->
  0 < work_left p <= INT_MAX ->
  wf (requeue qid p s).
Proof.
  intros (W0 & W1 & W2) Hq Hl Ht Hw. unfold requeue, wf, q_push.
  assert (qid = 0 \/ qid = 1 \/ qid = 2) as [-> | [-> | ->]] by lia; cbn;
    destruct (Z.gtb_spec (ticks_left p) 0); cbn;
    repeat split; auto; apply Forall_snoc; auto;
    unfold resident_ok, quantum_of, Q_L0, Q_L1, Q_L2 in *; cbn in *; lia.
Qed.

Lemma pick_qid_range (s : sched) (p : proc) (qid : Z) (s1 : sched) :
  pick s = Some (p, qid, s1) -> 0 <= qid <= 2.
Proof.
  intros H. apply pick_cases in H.
  destruct H as (_ & _ & [(-> & _) | [(-> & _) | (-> & _)]]); lia.
Qed.

Lemma wf_schedule_one_tick (s : sched) : wf s -> wf (schedule_one_tick s).
Proof.
  intros W. destruct (pick s) as [[[p qid] s1]|] eqn:H.
  - rewrite (schedule_one_tick_wf_eq _ _ _ _ W H).
    destruct (pick_resident_ok _ _ _ _ W H) as ((Hl & Ht & Hw) & W1).
    destruct (Z.leb_spec (work_left p) TICK_MS).
    + exact W1.
    + apply wf_requeue; cbn; auto using wf_printf.
      * eapply pick_qid_range; eauto.
      * lia.
      * unfold TICK_MS in *. lia.
  - unfold schedule_one_tick, select. rewrite H. exact W.
Qed.

(** ** The loader: progress and invariants *)

Lemma is_spin_inv (s : string) :
  is_spin s = true -> exists r, s = ("spin" ++ r)%string.
Proof.
  unfold is_spin. intros H. apply prefix_correct in H.
  destruct s as [|a [|b [|c [|d r]]]]; cbn in H; try discriminate.
  injection H as Ha Hb Hc Hd _. subst. exists r. reflexivity.
Qed.

Lemma skip_seps_length (s : string) :
  (String.length (skip_seps s) <= String.length s)%nat.
Proof. induction s as [|c r IH]; cbn; [lia|]. destruct (is_sep c); cbn; lia. Qed.

Lemma skip_seps_head (s : string) (c : ascii) (r : string) :
  skip_seps s = String c r -> is_sep c = false.
Proof.
  induction s as [|a s IH]; cbn; [discriminate|].
  destruct (is_sep a) eqn:E; [exact IH|]. intros H. inversion H; subst. exact E.
Qed.

Lemma skip_blanks_length (s : string) :
  (String.length (skip_blanks s) <= String.length s)%nat.
Proof. induction s as [|c r IH]; cbn; [lia|]. destruct (is_blank c); cbn; lia. Qed.

Lemma parse_int_length (s : string) (ms : Z) :
  (String.length (snd (parse_int ms s)) <= String.length s)%nat.
Proof.
  revert ms. induction s as [|c r IH]; intros ms; cbn; [lia|].
  destruct (is_digit c); cbn; [|lia].
  specialize (IH (wrap (ms * 10 + digit_val c))). lia.
Qed.

Lemma parse_int_range (s : string) (ms : Z) :
  INT_MIN <= ms <= INT_MAX -> INT_MIN <= fst (parse_int ms s) <= INT_MAX.
Proof.
  revert ms. induction s as [|c r IH]; intros ms H; cbn; [exact H|].
  destruct (is_digit c); cbn; [|exact H]. apply IH, wrap_range.
Qed.

Lemma skip_to_semi_length (s : string) :
  (String.length (skip_to_semi s) <= String.length s)%nat.
Proof.
  induction s as [|c r IH]; cbn; [lia|]. destruct (c =? ";")%char; cbn; lia.
Qed.

Lemma skip_semi_length (s : string) :
  (String.length (skip_semi s) <= String.length s)%nat.
Proof. destruct s as [|c r]; cbn; [lia|]. destruct (c =? ";")%char; cbn; lia. Qed.

Lemma is_sep_semi (c : ascii) : is_sep c = false -> (c =? ";")%char = false.
Proof.
  unfold is_sep. intros H. apply orb_false_iff in H. destruct H as (H & _).
  apply orb_false_iff in H. tauto.
Qed.

(** A round of the loader leaves strictly less text than it found. *)
Lemma round_progress (c : ascii) (r : string) (st : sched) :
  is_sep c = false ->
  (String.length (skip_semi (skip_to_semi (fst (spin_command (String c r) st))))
   < String.length (String c r))%nat.
Proof.
  intros Hc. unfold spin_command.
  destruct (is_spin (String c r)) eqn:E.
  - destruct (is_spin_inv _ E) as (t & Ht). rewrite Ht.
    change (advance 4 ("spin" ++ t)) with t.
    pose proof (parse_int_length (skip_blanks t) 0) as H1.
    pose proof (skip_blanks_length t) as H2.
    destruct (parse_int 0 (skip_blanks t)) as [ms s'] eqn:P. cbn [fst snd] in *.
    pose proof (skip_to_semi_length s') as H3.
    pose proof (skip_semi_length (skip_to_semi s')) as H4.
    cbn [String.length append]. lia.
  - cbn [fst skip_to_semi]. rewrite (is_sep_semi _ Hc).
    pose proof (skip_to_semi_length r) as H3.
    pose proof (skip_semi_length (skip_to_semi r)) as H4.
    cbn [String.length]. lia.
Qed.

(** The loader always returns: the length of the text is enough rounds. *)
Lemma userinit_spin_loop_total (fuel : nat) (s : string) (st : sched) :
  (String.length s <= fuel)%nat ->
  exists st', userinit_spin_loop fuel s st = Some st'.
Proof.
  revert s st. induction fuel as [|f IH]; intros s st Hlen.
  - destruct s; [|cbn in Hlen; lia]. exists st. reflexivity.
  - destruct s as [|a t]; [exists st; reflexivity|].
    cbn [userinit_spin_loop].
    destruct (skip_seps (String a t)) as [|c r] eqn:E; [exists st; reflexivity|].
    pose proof (skip_seps_head _ _ _ E) as Hc.
    pose proof (round_progress c r st Hc) as Hp.
    pose proof (skip_seps_length (String a t)) as Hs. rewrite E in Hs.
    destruct (spin_command (String c r) st) as [s2 st'] eqn:C.
    cbn [fst] in Hp. apply IH. lia.
Qed.

Lemma userinit_spin_total (cmd : string) (st : sched) :
  exists st', userinit_spin cmd st = Some st'.
Proof. apply userinit_spin_loop_total. lia. Qed.

(** More rounds than needed change nothing. *)
Lemma userinit_spin_loop_mono (fuel : nat) (s : string) (st st' : sched) :
  userinit_spin_loop fuel s st = Some st' ->
  forall fuel', (fuel <= fuel')%nat -> userinit_spin_loop fuel' s st = Some st'.
Proof.
  revert s st. induction fuel as [|f IH]; intros s st H fuel' Hle.
  - destruct s as [|a t]; cbn [userinit_spin_loop] in *.
    + destruct fuel'; exact H.
    + destruct fuel'; cbn [userinit_spin_loop];
        destruct (skip_seps (String a t)); congruence.
  - destruct fuel' as [|f']; [lia|].
    destruct s as [|a t]; [exact H|]. cbn [userinit_spin_loop] in *.
    destruct (skip_seps (String a t)) as [|c r]; [exact H|].
    destruct (spin_command (String c r) st) as [s2 st2].
    apply IH; [exact H | lia].
Qed.

Lemma new_proc_wf (nm : string) (ms : Z) (st : sched) :
  wf st -> 0 < ms <= INT_MAX -> wf (new_proc nm ms st).
Proof.
  intros (W0 & W1 & W2) Hms. unfold new_proc, wf, q_push; cbn.
  repeat split; auto. apply Forall_snoc; auto.
  unfold resident_ok, quantum_of, Q_L0; cbn. lia.
Qed.

Lemma spin_command_loaded (s : string) (st : sched) :
  loaded st -> loaded (snd (spin_command s st)).
Proof.
  intros L. unfold spin_command. destruct (is_spin s); [|exact L].
  pose proof (parse_int_range (skip_blanks (advance 4 s)) 0) as R.
  destruct (parse_int 0 (skip_blanks (advance 4 s))) as [ms s']. cbn [fst snd] in *.
  destruct (Z.gtb_spec ms 0); [|exact L].
  destruct L as (W & E1 & E2 & Eo). unfold loaded. split.
  - apply new_proc_wf; [exact W|]. unfold INT_MIN, INT_MAX in *. lia.
  - cbn. auto.
Qed.

Lemma userinit_spin_loop_loaded (fuel : nat) (s : string) (st st' : sched) :
  loaded st -> userinit_spin_loop fuel s st = Some st' -> loaded st'.
Proof.
  revert s st. induction fuel as [|f IH]; intros s st L H.
  - destruct s as [|a t]; cbn [userinit_spin_loop] in H.
    + injection H as <-. exact L.
    + destruct (skip_seps (String a t)); [|discriminate].
      injection H as <-. exact L.
  - destruct s as [|a t]; cbn [userinit_spin_loop] in H.
    + injection H as <-. exact L.
    + destruct (skip_seps (String a t)) as [|c r].
      * injection H as <-. exact L.
      * pose proof (spin_command_loaded (String c r) st L) as L'.
        destruct (spin_command (String c r) st) as [s2 st2]. eapply IH; eauto.
Qed.

Lemma init_sched_loaded : loaded init_sched.
Proof. unfold loaded, wf, init_sched; cbn. repeat split; auto. Qed.

Lemma boot_loaded (cmd : string) (m : mstate) :
  boot cmd = Some m -> loaded (sys m) /\ idle m = 0 /\ ticks m = 0.
Proof.
  unfold boot, userinit_spin. intros H.
  destruct (userinit_spin_loop _ cmd init_sched) as [st|] eqn:E; [|discriminate].
  inversion H; subst; cbn. split; auto.
  eapply userinit_spin_loop_loaded; eauto using init_sched_loaded.
Qed.

Lemma boot_total (cmd : string) : exists m, boot cmd = Some m.
Proof.
  unfold boot. destruct (userinit_spin_total cmd init_sched) as (st & ->). eauto.
Qed.

(** ** The invariant of the driver *)

(** The body of the loop with the counters' arithmetic done. *)
Lemma main_iter_eq (n : nat) (m : mstate) :
  run_inv n m ->
  main_iter m =
    if ticks m >? TICK_CAP then Break m
    else if all_empty (sys m) then
      if idle m + 1 >? IDLE_CAP
      then Break (mkM (sys m) (idle m + 1) (ticks m + 1))
      else Continue (mkM (printf (EvIdle TICK_MS) (sys m))
                         (idle m + 1) (ticks m + 1))
    else Continue (mkM (schedule_one_tick (sys m)) 0 (ticks m + 1)).
Proof.
  intros (_ & Ht & Hi & Hn). unfold main_iter.
  rewrite (wrap_id (idle m + 1)), (wrap_id (ticks m + 1));
    unfold INT_MIN, INT_MAX, IDLE_CAP, TICK_CAP in *; try lia.
  reflexivity.
Qed.

Lemma main_iter_inv (n : nat) (m m' : mstate) :
  run_inv n m -> main_iter m = Continue m' -> run_inv (S n) m'.
Proof.
  intros I H. rewrite (main_iter_eq n m I) in H.
  destruct I as (W & Ht & Hi & Hn). unfold run_inv.
  destruct (Z.gtb_spec (ticks m) TICK_CAP); [discriminate|].
  destruct (all_empty (sys m)).
  - destruct (Z.gtb_spec (idle m + 1) IDLE_CAP); [discriminate|].
    injection H as <-. cbn [sys idle ticks].
    split; [apply wf_printf, W | lia].
  - injection H as <-. cbn [sys idle ticks]. unfold IDLE_CAP.
    split; [apply wf_schedule_one_tick, W | lia].
Qed.

Lemma state_at_inv (cmd : string) (n : nat) (m : mstate) :
  state_at cmd n = Some m -> run_inv n m.
Proof.
  revert m. induction n as [|n IH]; intros m H.
  - cbn in H. apply boot_loaded in H. destruct H as ((W & _) & Hi & Ht).
    unfold run_inv, IDLE_CAP, TICK_CAP. rewrite Hi, Ht. split; [exact W | lia].
  - cbn [state_at] in H.
    destruct (state_at cmd n) as [m0|]; [|discriminate].
    destruct (main_iter m0) as [m1|m1] eqn:E; [|discriminate].
    injection H as <-. eapply main_iter_inv; eauto.
Qed.

Lemma state_at_wf (cmd : string) (n : nat) (m : mstate) :
  state_at cmd n = Some m -> wf (sys m).
Proof. intros H. apply state_at_inv in H. apply H. Qed.

Lemma state_at_S (cmd : string) (n : nat) (m m' : mstate) :
  state_at cmd n = Some m -> main_iter m = Continue m' ->
  state_at cmd (S n) = Some m'.
Proof. intros H E. cbn [state_at]. rewrite H, E. reflexivity. Qed.

Lemma state_at_S_inv (cmd : string) (n : nat) (m' : mstate) :
  state_at cmd (S n) = Some m' ->
  exists m, state_at cmd n = Some m /\ main_iter m = Continue m'.
Proof.
  cbn [state_at]. intros H.
  destruct (state_at cmd n) as [m|]; [|discriminate].
  destruct (main_iter m) as [m1|m1] eqn:E; [|discriminate].
  injection H as <-. eauto.
Qed.

(** From the state of round [n], [fuel] rounds are enough as soon as
    [n + fuel] passes the cap. *)
Lemma main_loop_stops (cmd : string) (fuel n : nat) (m : mstate) :
  state_at cmd n = Some m ->
  TICK_CAP + 2 <= Z.of_nat n + Z.of_nat fuel ->
  exists k mk mf,
    state_at cmd k = Some mk /\ main_iter mk = Break mf
    /\ main_loop fuel m = Some mf.
Proof.
  revert n m. induction fuel as [|f IH]; intros n m H Hf.
  - apply state_at_inv in H. destruct H as (_ & _ & _ & Hn). lia.
  - cbn [main_loop]. destruct (main_iter m) as [m'|m'] eqn:E.
    + apply (IH (S n)); [eapply state_at_S; eauto | lia].
    + exists n, m, m'. auto.
Qed.


(** ** Dispatch *)

Lemma guard_fields (q : Z) (p : proc) :
  pid (guard q p) = pid p /\ name (guard q p) = name p
  /\ level (guard q p) = level p /\ work_left (guard q p) = work_left p.
Proof. unfold guard. destruct (ticks_left p =? 0); cbn; auto. Qed.

Lemma requeue_out (qid : Z) (p : proc) (s : sched) :
  out (requeue qid p s) = out s /\ next_pid (requeue qid p s) = next_pid s.
Proof.
  unfold requeue.
  destruct (qid =? 0); [|destruct (qid =? 1)];
    destruct (ticks_left p >? 0); cbn; auto.
Qed.

Lemma schedule_one_tick_out (s : sched) (p : proc) (qid : Z) (s1 : sched) :
  pick s = Some (p, qid, s1) ->
  exists rest,
    out (schedule_one_tick s)
    = out s ++ EvRun (name p) (pid p) TICK_MS (level p) :: rest.
Proof.
  intros H. unfold schedule_one_tick, select. rewrite H.
  destruct (pick_cases _ _ _ _ H) as (_ & Ho & _).
  destruct (guard_fields (quantum_of qid) p) as (Hp & Hn & Hl & _).
  set (g := guard (quantum_of qid) p) in *.
  assert (on_tick_line (on_tick g) = EvRun (name p) (pid p) TICK_MS (level p))
    as El by (unfold on_tick_line, on_tick; cbn; congruence).
  rewrite El.
  destruct (work_left (on_tick g) <=? 0).
  - eexists. cbn. rewrite Ho, <- app_assoc. reflexivity.
  - exists []. rewrite (proj1 (requeue_out _ _ _)). cbn. rewrite Ho. reflexivity.
Qed.

(** C1: on a tick with some non-empty queue the process dispatched is
    the head of the lowest-numbered non-empty queue (level 0 whenever
    level 0 has a process, level 1 only when level 0 is empty, level 2
    only when levels 0 and 1 are empty), and the run line printed for
    the tick is that process's. *)
Theorem dispatch_lowest_nonempty (s : sched) :
  all_empty s = false ->
  exists p qid s1,
    pick s = Some (p, qid, s1)
    /\ 0 <= qid <= 2
    /\ queue_at qid s = p :: queue_at qid s1
    /\ (forall l, 0 <= l < qid -> queue_at l s = [])
    /\ (L0 s <> [] -> qid = 0)
    /\ (qid = 1 -> L0 s = [])
    /\ (qid = 2 -> L0 s = [] /\ L1 s = [])
    /\ exists rest,
         out (schedule_one_tick s)
         = out s ++ EvRun (name p) (pid p) TICK_MS (level p) :: rest.
Proof.
  intros Hne. destruct (pick s) as [[[p qid] s1]|] eqn:H.
  - exists p, qid, s1. split; [reflexivity|].
    pose proof (schedule_one_tick_out _ _ _ _ H) as Hout.
    destruct (pick_cases _ _ _ _ H)
      as (_ & _ & [(-> & E0 & E1 & E2) | [(-> & E0 & E0' & E1 & E2)
                  | (-> & E0 & E0' & E1 & E1' & E2)]]);
      unfold queue_at; cbn [Z.eqb].
    + repeat split; try lia; try congruence; auto.
    + repeat split; try lia; try congruence; auto.
      try (intros l Hl; assert (l = 0) as -> by lia; exact E0).
    + repeat split; try lia; try congruence; auto.
      try (intros l Hl; assert (l = 0 \/ l = 1) as [-> | ->] by lia;
           cbn; assumption).
  - apply pick_none in H. congruence.
Qed.

Lemma dispatch_lowest_nonempty_witness :
  all_empty (sys scenario_a_boot) = false
  /\ exists p qid s1,
       pick (sys scenario_a_boot) = Some (p, qid, s1) /\ 0 <= qid <= 2.
Proof.
  split; [reflexivity|].
  destruct (dispatch_lowest_nonempty (sys scenario_a_boot) eq_refl)
    as (p & qid & s1 & H & Hq & _).
  exists p, qid, s1. split; assumption.
Defined.

(** ** Invariants of every reachable state *)

Lemma wf_residents (s : sched) (p : proc) :
  wf s -> In p (residents s) ->
  exists qid, 0 <= qid <= 2 /\ resident_ok qid p /\ In p (queue_at qid s).
Proof.
  intros (W0 & W1 & W2) Hin. unfold residents in Hin.
  rewrite !in_app_iff in Hin. rewrite Forall_forall in W0, W1, W2.
  destruct Hin as [H | [H | H]].
  - exists 0. split; [lia|]. split; [auto | exact H].
  - exists 1. split; [lia|]. split; [auto | exact H].
  - exists 2. split; [lia|]. split; [auto | exact H].
Qed.

(** C5: in every state the driver reaches, every process in a queue has
    [0 <= ticks_left <= quantum(level)] with quanta 1, 2 and 4, and so has
    the dispatched process, both when it is selected and after its tick
    has been accounted. *)
Theorem quantum_bound (cmd : string) (n : nat) (m : mstate) :
  state_at cmd n = Some m ->
  (forall p, In p (residents (sys m)) ->
     0 <= level p <= 2 /\ 0 <= ticks_left p <= quantum_of (level p))
  /\ (forall p qid s1, select (sys m) = Some (p, qid, s1) ->
        0 <= ticks_left p <= quantum_of (level p)
        /\ 0 <= ticks_left (on_tick p) <= quantum_of (level (on_tick p)))
  /\ quantum_of 0 = 1 /\ quantum_of 1 = 2 /\ quantum_of 2 = 4.
Proof.
  intros H. pose proof (state_at_wf _ _ _ H) as W.
  split; [|split; [|repeat split; reflexivity]].
  - intros p Hin. destruct (wf_residents _ _ W Hin) as (qid & Hq & (Hl & Ht & _) & _).
    rewrite Hl. lia.
  - intros p qid s1 Hs. unfold select in Hs.
    destruct (pick (sys m)) as [[[p0 q0] s0]|] eqn:Hp; [|discriminate].
    injection Hs as <- <- <-.
    destruct (pick_resident_ok _ _ _ _ W Hp) as (Hok & _).
    rewrite (guard_ok _ _ Hok), (on_tick_ok _ _ Hok).
    destruct Hok as (Hl & Ht & _). cbn. rewrite Hl. lia.
Qed.

Lemma quantum_bound_witness :
  state_at scenario_a 0 = Some scenario_a_boot
  /\ quantum_of 2 = 4.
Proof.
  split; [reflexivity|].
  apply (quantum_bound scenario_a 0 scenario_a_boot eq_refl).
Defined.

(** C6: in every state the driver reaches, the process popped for
    dispatch has a positive [ticks_left], so the entry guard leaves it as
    it is: the reset branch is never taken. *)
Theorem entry_guard_unreachable (cmd : string) (n : nat) (m : mstate)
    (p : proc) (qid : Z) (s1 : sched) :
  state_at cmd n = Some m ->
  pick (sys m) = Some (p, qid, s1) ->
  0 < ticks_left p
  /\ (ticks_left p =? 0) = false
  /\ guard (quantum_of qid) p = p
  /\ select (sys m) = Some (p, qid, s1).
Proof.
  intros H Hp. pose proof (state_at_wf _ _ _ H) as W.
  destruct (pick_resident_ok _ _ _ _ W Hp) as (Hok & _).
  pose proof (guard_ok _ _ Hok) as G.
  destruct Hok as (_ & Ht & _).
  split; [lia|]. split; [apply Z.eqb_neq; lia|]. split; [exact G|].
  unfold select. rewrite Hp, G. reflexivity.
Qed.

Lemma entry_guard_unreachable_witness :
  state_at scenario_a 0 = Some scenario_a_boot
  /\ 0 < ticks_left (mkProc 1 "spin" 10 1 0).
Proof.
  split; [reflexivity|].
  apply (entry_guard_unreachable scenario_a 0 scenario_a_boot
           (mkProc 1 "spin" 10 1 0) 0
           (set_L0 (tl (L0 (sys scenario_a_boot))) (sys scenario_a_boot))
           eq_refl eq_refl).
Defined.



(** ** Termination of the driver *)

(** C7: for every command line the driver stops, after at most
    [TICK_CAP + 2] rounds; every round, idle or not, counts one tick; and
    it stops either because more than [TICK_CAP = 100000] ticks were
    counted or because the idle counter went above [IDLE_CAP = 10].  The
    round that stops prints nothing and leaves the queues as they are. *)
Theorem driver_terminates (arg : option string) :
  exists n m mf,
    state_at (cmdline_of arg) n = Some m
    /\ main_iter m = Break mf
    /\ main arg = Some mf
    /\ sys mf = sys m
    /\ ticks m = Z.of_nat n
    /\ Z.of_nat n <= TICK_CAP + 1
    /\ ((ticks m > TICK_CAP /\ mf = m)
        \/ (ticks m <= TICK_CAP /\ all_empty (sys m) = true
            /\ idle mf = idle m + 1 /\ idle mf > IDLE_CAP
            /\ ticks mf = ticks m + 1))
    /\ TICK_CAP = 100000 /\ IDLE_CAP = 10.
Proof.
  destruct (boot_total (cmdline_of arg)) as (m0 & Hb).
  destruct (main_loop_stops (cmdline_of arg) MAIN_FUEL 0 m0 Hb)
    as (n & m & mf & Hs & Hbr & Hm).
  { unfold MAIN_FUEL, TICK_CAP. lia. }
  exists n, m, mf. pose proof (state_at_inv _ _ _ Hs) as I.
  pose proof (main_iter_eq _ _ I) as E. destruct I as (_ & Ht & Hi & Hn).
  repeat split; auto.
  - unfold main. rewrite Hb. exact Hm.
  - rewrite E in Hbr. destruct (ticks m >? TICK_CAP); [congruence|].
    destruct (all_empty (sys m)); [|discriminate].
    destruct (idle m + 1 >? IDLE_CAP); [|discriminate].
    injection Hbr as <-. reflexivity.
  - rewrite E in Hbr. destruct (Z.gtb_spec (ticks m) TICK_CAP).
    + left. split; [lia | congruence].
    + right. destruct (all_empty (sys m)); [|discriminate].
      destruct (Z.gtb_spec (idle m + 1) IDLE_CAP); [|discriminate].
      injection Hbr as <-. cbn. repeat split; auto; lia.
Qed.


(** ** Round robin and demotion *)

Lemma queue_at_printf (l : Z) (e : event) (s : sched) :
  queue_at l (printf e s) = queue_at l s.
Proof. reflexivity. Qed.

(** C2: in every state the driver reaches, a dispatched process that
    does not exit on its tick goes to the tail of one queue and no other
    queue changes: with [ticks_left > 0] after the tick, the queue of its
    level, the process unchanged; with [ticks_left = 0] below the last
    level, the queue of [level + 1], its level raised by one and its
    quantum that level's; with [ticks_left = 0] at the last level, the
    queue of the last level again, its quantum refreshed. *)
Theorem requeue_or_demote (cmd : string) (n : nat) (m : mstate)
    (p : proc) (qid : Z) (s1 : sched) :
  state_at cmd n = Some m ->
  pick (sys m) = Some (p, qid, s1) ->
  let p1 := on_tick (guard (quantum_of qid) p) in
  let s' := schedule_one_tick (sys m) in
  0 < work_left p1 ->
  level p = qid /\ level p1 = level p
  /\ (0 < ticks_left p1 \/ ticks_left p1 = 0)
  /\ (0 < ticks_left p1 ->
      queue_at (level p) s' = queue_at (level p) s1 ++ [p1]
      /\ forall l, 0 <= l <= 2 -> l <> level p ->
           queue_at l s' = queue_at l s1)
  /\ (ticks_left p1 = 0 -> level p < 2 ->
      queue_at (level p + 1) s'
      = queue_at (level p + 1) s1
          ++ [mkProc (pid p) (name p) (work_left p1)
                     (quantum_of (level p + 1)) (level p + 1)]
      /\ forall l, 0 <= l <= 2 -> l <> level p + 1 ->
           queue_at l s' = queue_at l s1)
  /\ (ticks_left p1 = 0 -> level p = 2 ->
      queue_at 2 s'
      = queue_at 2 s1
          ++ [mkProc (pid p) (name p) (work_left p1) (quantum_of 2) 2]
      /\ forall l, 0 <= l <= 2 -> l <> 2 -> queue_at l s' = queue_at l s1).
Proof.
  intros H Hp p1 s' Hw. pose proof (state_at_wf _ _ _ H) as W.
  destruct (pick_resident_ok _ _ _ _ W Hp) as (Hok & _).
  assert (p1 = mkProc (pid p) (name p) (work_left p - TICK_MS)
                      (ticks_left p - 1) (level p)) as E1.
  { subst p1. rewrite (guard_ok _ _ Hok). exact (on_tick_ok _ _ Hok). }
  assert (s' = requeue qid p1 (printf (on_tick_line p) s1)) as Es.
  { subst s'. rewrite (schedule_one_tick_wf_eq _ _ _ _ W Hp).
    rewrite E1 in Hw. cbn in Hw.
    destruct (Z.leb_spec (work_left p) TICK_MS); [lia|]. rewrite E1. reflexivity. }
  pose proof (pick_qid_range _ _ _ _ Hp) as Hq.
  destruct Hok as (Hl & Ht & _).
  clearbody p1 s'. subst p1 s'. cbn [level ticks_left work_left].
  rewrite Hl. split; [reflexivity|]. split; [reflexivity|]. split; [lia|].
  assert (qid = 0 \/ qid = 1 \/ qid = 2) as [-> | [-> | ->]] by lia;
    unfold requeue; cbn [Z.eqb ticks_left];
    destruct (Z.gtb_spec (ticks_left p - 1) 0);
    (split; [|split]); intros; try lia;
    (split; [reflexivity|]);
    intros l Hl1 Hl2;
    (assert (l = 0 \/ l = 1 \/ l = 2) as [-> | [-> | ->]] by lia);
    try lia; reflexivity.
Qed.

Lemma requeue_or_demote_witness :
  state_at single_cmd 0 = Some single_boot
  /\ pick (sys single_boot)
     = Some (mkProc 1 "spin" 100 1 0, 0, mkSched [] [] [] 2 [])
  /\ 0 < work_left (on_tick (guard (quantum_of 0) (mkProc 1 "spin" 100 1 0)))
  /\ queue_at 1 (schedule_one_tick (sys single_boot))
     = [mkProc 1 "spin" 90 2 1].
Proof.
  split; [reflexivity|]. split; [reflexivity|]. split; [reflexivity|].
  destruct (requeue_or_demote single_cmd 0 single_boot
              (mkProc 1 "spin" 100 1 0) 0 (mkSched [] [] [] 2 [])
              eq_refl eq_refl eq_refl) as (_ & _ & _ & _ & Hd & _).
  exact (proj1 (Hd eq_refl eq_refl)).
Defined.

(** ** The rounds of the driver *)

Lemma main_loop_mono (fuel : nat) (m mf : mstate) :
  main_loop fuel m = Some mf ->
  forall fuel', (fuel <= fuel')%nat -> main_loop fuel' m = Some mf.
Proof.
  revert m. induction fuel as [|f IH]; intros m H fuel' Hle; [discriminate|].
  destruct fuel' as [|f']; [lia|]. cbn [main_loop] in *.
  destruct (main_iter m) as [m'|m']; [|exact H]. apply IH; [exact H | lia].
Qed.

Lemma all_empty_true (s : sched) :
  all_empty s = true -> L0 s = [] /\ L1 s = [] /\ L2 s = [].
Proof.
  unfold all_empty. destruct (L0 s), (L1 s), (L2 s); intros; try discriminate; auto.
Qed.

(** C8, counterexample: after ten idle rounds on an empty command line
    every queue is empty, and the next round of the driver ends the loop
    without printing anything. *)
Lemma idle_round_without_line :
  state_at EmptyString 10 = Some quiet_10
  /\ all_empty (sys quiet_10) = true
  /\ main_iter quiet_10 = Break (mkM (sys quiet_10) 11 11).
Proof. repeat split; reflexivity. Qed.

(** C8, amended: in a round that starts with at most [TICK_CAP] ticks
    counted, with every queue empty the driver adds one to the idle
    counter and, unless that makes it exceed [IDLE_CAP], prints the one
    line [Process idle 0 has consumed 10 ms in IDLE]; when it does exceed,
    the loop ends and nothing is printed; with a non-empty queue the idle
    counter is set to zero and [schedule_one_tick] runs once.  When the
    loader creates no process the run prints ten idle lines and nothing
    else. *)
Theorem driver_round :
  (forall cmd n m,
     state_at cmd n = Some m -> ticks m <= TICK_CAP ->
     (all_empty (sys m) = true -> idle m < IDLE_CAP ->
      main_iter m = Continue (mkM (printf (EvIdle TICK_MS) (sys m))
                                  (idle m + 1) (ticks m + 1)))
     /\ (all_empty (sys m) = true -> idle m = IDLE_CAP ->
         main_iter m = Break (mkM (sys m) (idle m + 1) (ticks m + 1)))
     /\ (all_empty (sys m) = false ->
         main_iter m = Continue (mkM (schedule_one_tick (sys m))
                                     0 (ticks m + 1))))
  /\ render (EvIdle TICK_MS)
     = ("Process idle 0 has consumed 10 ms in IDLE" ++ nl)%string
  /\ (forall cmd m0,
        boot cmd = Some m0 -> all_empty (sys m0) = true ->
        exists mf,
          main (Some cmd) = Some mf
          /\ out (sys mf) = repeat (EvIdle TICK_MS) 10
          /\ all_empty (sys mf) = true)
  /\ boot EmptyString = Some (mkM init_sched 0 0).
Proof.
  split; [|split; [reflexivity|split; [|reflexivity]]].
  - intros cmd n m H Hcap. pose proof (state_at_inv _ _ _ H) as I.
    rewrite (main_iter_eq _ _ I). destruct I as (_ & _ & Hi & _).
    destruct (Z.gtb_spec (ticks m) TICK_CAP); [lia|].
    split; [|split]; intros Ha; rewrite Ha; [intros Hlt | intros Heq |].
    + destruct (Z.gtb_spec (idle m + 1) IDLE_CAP); [lia | reflexivity].
    + destruct (Z.gtb_spec (idle m + 1) IDLE_CAP); [reflexivity | lia].
    + reflexivity.
  - intros cmd m0 Hb Ha.
    destruct (boot_loaded _ _ Hb) as ((_ & _ & _ & Ho) & Hi & Ht).
    destruct (all_empty_true _ Ha) as (E0 & E1 & E2).
    destruct m0 as [[l0 l1 l2 np o] i t]. cbn in *. subst.
    exists (mkM (mkSched [] [] [] np (repeat (EvIdle TICK_MS) 10)) 11 11).
    split; [|split; reflexivity].
    unfold main, cmdline_of. rewrite Hb.
    apply (main_loop_mono 11); [reflexivity|].
    unfold MAIN_FUEL, TICK_CAP. lia.
Qed.

Lemma driver_round_witness :
  state_at scenario_a 0 = Some scenario_a_boot
  /\ ticks scenario_a_boot <= TICK_CAP
  /\ all_empty (sys scenario_a_boot) = false
  /\ main_iter scenario_a_boot
     = Continue (mkM (schedule_one_tick (sys scenario_a_boot)) 0 1)
  /\ boot noise_cmd = Some (mkM init_sched 0 0)
  /\ exists mf, main (Some noise_cmd) = Some mf
                /\ out (sys mf) = repeat (EvIdle TICK_MS) 10.
Proof.
  assert (ticks scenario_a_boot <= TICK_CAP) as Hc by (unfold TICK_CAP; cbn; lia).
  split; [reflexivity|]. split; [exact Hc|]. split; [reflexivity|].
  destruct driver_round as (Hround & _ & Hquiet & _).
  split.
  - exact (proj2 (proj2 (Hround scenario_a 0%nat scenario_a_boot eq_refl Hc))
             eq_refl).
  - split; [reflexivity|].
    destruct (Hquiet noise_cmd (mkM init_sched 0 0) eq_refl eq_refl)
      as (mf & Hm & Ho & _).
    exists mf. split; assumption.
Defined.

(** ** Process identifiers *)

Lemma residents_new_proc (nm : string) (ms : Z) (st : sched) :
  Permutation (residents (new_proc nm ms st))
              (mkProc (next_pid st) (snprintf32 nm) ms Q_L0 0 :: residents st).
Proof.
  unfold residents, new_proc, q_push; cbn.
  rewrite <- app_assoc. cbn. symmetry. apply Permutation_middle.
Qed.

Lemma new_proc_pid_inv (nm : string) (ms : Z) (st : sched) :
  pid_inv st -> next_pid st < INT_MAX ->
  pid_inv (new_proc nm ms st)
  /\ next_pid (new_proc nm ms st) = next_pid st + 1.
Proof.
  intros (Hnd & Hlt & Hr) Hmax.
  assert (next_pid (new_proc nm ms st) = next_pid st + 1) as En.
  { cbn. apply wrap_id. unfold INT_MIN, INT_MAX in *. lia. }
  split; [|exact En]. unfold pid_inv. rewrite En.
  pose proof (Permutation_map pid (residents_new_proc nm ms st)) as P.
  cbn [map pid] in P. fold (pids (new_proc nm ms st)) in P. fold (pids st) in P.
  split; [|split].
  - apply (Permutation_NoDup (Permutation_sym P)). constructor; [|exact Hnd].
    intros Hin. rewrite Forall_forall in Hlt. apply Hlt in Hin. lia.
  - apply (Permutation_Forall (Permutation_sym P)). constructor; [lia|].
    eapply Forall_impl; [|exact Hlt]. cbn. intros; lia.
  - lia.
Qed.

Lemma spin_command_pid (s : string) (st : sched) :
  pid_inv st -> next_pid st < INT_MAX ->
  pid_inv (snd (spin_command s st))
  /\ next_pid (snd (spin_command s st)) <= next_pid st + 1.
Proof.
  intros I Hmax. unfold spin_command.
  destruct (is_spin s); [|cbn; split; [exact I | lia]].
  destruct (parse_int 0 (skip_blanks (advance 4 s))) as [ms s']. cbn [snd].
  destruct (ms >? 0); [|split; [exact I | lia]].
  destruct (new_proc_pid_inv "spin" ms st I Hmax) as (I' & ->).
  split; [exact I' | lia].
Qed.

Lemma userinit_spin_loop_pid (fuel : nat) (s : string) (st st' : sched) :
  pid_inv st -> next_pid st + Z.of_nat (String.length s) <= INT_MAX ->
  userinit_spin_loop fuel s st = Some st' -> pid_inv st'.
Proof.
  revert s st. induction fuel as [|f IH]; intros s st I Hb H.
  - destruct s as [|a t]; cbn [userinit_spin_loop] in H.
    + injection H as <-. exact I.
    + destruct (skip_seps (String a t)); [|discriminate].
      injection H as <-. exact I.
  - destruct s as [|a t]; cbn [userinit_spin_loop] in H.
    + injection H as <-. exact I.
    + destruct (skip_seps (String a t)) as [|c r] eqn:E.
      * injection H as <-. exact I.
      * pose proof (skip_seps_head _ _ _ E) as Hc.
        pose proof (round_progress c r st Hc) as Hp.
        pose proof (skip_seps_length (String a t)) as Hs. rewrite E in Hs.
        assert (next_pid st < INT_MAX) as Hmax by (cbn [String.length] in *; lia).
        destruct (spin_command_pid (String c r) st I Hmax) as (I' & Hn).
        destruct (spin_command (String c r) st) as [s2 st2].
        cbn [fst snd] in *. refine (IH _ _ I' _ H). lia.
Qed.

Lemma boot_pid_inv (cmd : string) (m : mstate) :
  Z.of_nat (String.length cmd) < INT_MAX ->
  boot cmd = Some m -> NoDup (pids (sys m)).
Proof.
  unfold boot, userinit_spin. intros Hlen H.
  destruct (userinit_spin_loop _ cmd init_sched) as [st|] eqn:E; [|discriminate].
  injection H as <-. cbn [sys].
  refine (proj1 (userinit_spin_loop_pid _ _ _ _ _ _ E)).
  - unfold pid_inv, init_sched, pids, residents, INT_MAX; cbn.
    split; [constructor | split; [constructor | lia]].
  - cbn [next_pid init_sched]. lia.
Qed.

(** ** What one tick does to the set of processes *)

Lemma pick_residents (s : sched) (p : proc) (qid : Z) (s1 : sched) :
  pick s = Some (p, qid, s1) -> residents s = p :: residents s1.
Proof.
  intros H. unfold residents.
  destruct (pick_cases _ _ _ _ H)
    as (_ & _ & [(-> & E0 & E1 & E2) | [(-> & E0 & E0' & E1 & E2)
                | (-> & E0 & E0' & E1 & E1' & E2)]]).
  - rewrite E0, E1, E2. reflexivity.
  - rewrite E0, E0', E1, E2. reflexivity.
  - rewrite E0, E0', E1, E1', E2. reflexivity.
Qed.

Lemma perm_insert {A} (x : A) (a b c : list A) :
  Permutation (a ++ (b ++ [x]) ++ c) (x :: a ++ b ++ c).
Proof.
  replace (a ++ (b ++ [x]) ++ c) with ((a ++ b) ++ x :: c)
    by (rewrite <- !app_assoc; reflexivity).
  replace (x :: a ++ b ++ c) with (x :: (a ++ b) ++ c)
    by (rewrite <- app_assoc; reflexivity).
  symmetry. apply Permutation_middle.
Qed.

Lemma perm_insert_last {A} (x : A) (a b c : list A) :
  Permutation (a ++ b ++ c ++ [x]) (x :: a ++ b ++ c).
Proof. rewrite !app_assoc. symmetry. apply Permutation_cons_append. Qed.

Lemma requeue_residents (qid : Z) (p : proc) (s : sched) :
  0 <= qid <= 2 -> level p = qid ->
  exists p',
    Permutation (residents (requeue qid p s)) (p' :: residents s)
    /\ pid p' = pid p /\ name p' = name p /\ work_left p' = work_left p
    /\ level p <= level p' <= 2 /\ (level p = 2 -> level p' = 2).
Proof.
  intros Hq Hl. unfold requeue, residents, q_push.
  assert (qid = 0 \/ qid = 1 \/ qid = 2) as [-> | [-> | ->]] by lia;
    cbn [Z.eqb]; destruct (ticks_left p >? 0); cbn [L0 L1 L2 set_L0 set_L1 set_L2];
    eexists;
    (split;
     [first [ exact (perm_insert _ [] _ _) | exact (perm_insert _ _ _ _)
            | exact (perm_insert_last _ _ _ _) ]
     | cbn; rewrite ?Hl; repeat split; try reflexivity; lia]).
Qed.

Lemma tick_effect (s : sched) (p : proc) (qid : Z) (s1 : sched) :
  wf s -> pick s = Some (p, qid, s1) ->
  let s' := schedule_one_tick s in
  residents s = p :: residents s1
  /\ 0 < work_left p
  /\ ((work_left p <= TICK_MS
       /\ s' = printf (proc_exit_line p) (printf (on_tick_line p) s1))
      \/ (TICK_MS < work_left p
          /\ out s' = out s ++ [on_tick_line p]
          /\ exists p',
               Permutation (residents s') (p' :: residents s1)
               /\ pid p' = pid p /\ name p' = name p
               /\ work_left p' = work_left p - TICK_MS
               /\ level p <= level p' <= 2
               /\ (level p = 2 -> level p' = 2))).
Proof.
  intros W H s'. split; [exact (pick_residents _ _ _ _ H)|].
  destruct (pick_resident_ok _ _ _ _ W H) as ((Hl & Ht & Hw) & _).
  split; [lia|]. subst s'. rewrite (schedule_one_tick_wf_eq _ _ _ _ W H).
  destruct (pick_cases _ _ _ _ H) as (_ & Ho & _).
  destruct (Z.leb_spec (work_left p) TICK_MS); [left; auto | right].
  split; [lia|]. split.
  - rewrite (proj1 (requeue_out _ _ _)). cbn. rewrite Ho. reflexivity.
  - set (p1 := mkProc _ _ _ _ _).
    destruct (requeue_residents qid p1 (printf (on_tick_line p) s1)
                (pick_qid_range _ _ _ _ H) Hl)
      as (p' & P & Ep & En & Ew & Hlv & Hl2).
    exists p'. cbn in *. auto 10.
Qed.

(** ** Runs: what later states inherit from earlier ones *)

Lemma descends_refl (s : sched) : descends s s.
Proof.
  split.
  - intros q Hq. exists q. repeat split; auto; lia.
  - exists []. rewrite app_nil_r. split; [reflexivity|]. intros e x [].
Qed.

Lemma descends_pids (s s' : sched) :
  descends s s' -> incl (pids s') (pids s).
Proof.
  intros (H & _) x Hx. unfold pids in *. apply in_map_iff in Hx.
  destruct Hx as (q & <- & Hq). destruct (H q Hq) as (p & Hp & <- & _).
  apply in_map. exact Hp.
Qed.

Lemma descends_trans (s1 s2 s3 : sched) :
  descends s1 s2 -> descends s2 s3 -> descends s1 s3.
Proof.
  intros D12 D23. pose proof (descends_pids _ _ D12) as I12.
  destruct D12 as (H12 & evs1 & E1 & P1). destruct D23 as (H23 & evs2 & E2 & P2).
  split.
  - intros q Hq. destruct (H23 q Hq) as (p2 & Hp2 & Epid2 & Hle2 & Hl2).
    destruct (H12 p2 Hp2) as (p1 & Hp1 & Epid1 & Hle1 & Hl1).
    exists p1. repeat split; auto; try congruence; try lia.
  - exists (evs1 ++ evs2). rewrite E2, E1, app_assoc. split; [reflexivity|].
    intros e x Hin He. apply in_app_iff in Hin. destruct Hin as [Hin | Hin].
    + eapply P1; eauto.
    + apply I12. eapply P2; eauto.
Qed.

Lemma tick_descends (s : sched) :
  wf s -> all_empty s = false -> descends s (schedule_one_tick s).
Proof.
  intros W Hne. destruct (pick s) as [[[p qid] s1]|] eqn:H;
    [|apply pick_none in H; congruence].
  destruct (tick_effect _ _ _ _ W H)
    as (Er & Hw & [(Hle & Es)
                  | (Hgt & Eo & p' & P & Ep & En & Ew & Hlv & Hl2)]).
  - rewrite Es. destruct (pick_cases _ _ _ _ H) as (_ & Ho & _). split.
    + intros q Hq. change (In q (residents s1)) in Hq.
      exists q. rewrite Er. repeat split; auto using in_cons; lia.
    + exists [on_tick_line p; proc_exit_line p]. cbn [out printf].
      rewrite Ho, <- app_assoc. split; [reflexivity|].
      intros e x Hin He. unfold pids. rewrite Er. cbn [map]. left.
      destruct Hin as [<- | [<- | []]]; cbn in He; congruence.
  - split.
    + intros q Hq. apply (Permutation_in _ P) in Hq. rewrite Er.
      destruct Hq as [<- | Hq].
      * exists p. repeat split; auto using in_eq; lia.
      * exists q. repeat split; auto using in_cons; lia.
    + exists [on_tick_line p]. split; [exact Eo|].
      intros e x Hin He. unfold pids. rewrite Er. cbn [map]. left.
      destruct Hin as [<- | []]; cbn in He; congruence.
Qed.

Lemma tick_nodup (s : sched) :
  wf s -> NoDup (pids s) -> NoDup (pids (schedule_one_tick s)).
Proof.
  intros W N. destruct (pick s) as [[[p qid] s1]|] eqn:H.
  - destruct (tick_effect _ _ _ _ W H)
      as (Er & Hw & [(Hle & Es) | (Hgt & Eo & p' & P & Ep & _)]);
      unfold pids in *; rewrite Er in N; cbn [map] in N.
    + rewrite Es. change (NoDup (map pid (residents s1))).
      inversion N; assumption.
    + apply (Permutation_NoDup (Permutation_sym (Permutation_map pid P))).
      cbn [map]. rewrite Ep. exact N.
  - unfold schedule_one_tick, select. rewrite H. exact N.
Qed.

(** The two ways a round of the driver goes on. *)
Lemma step_sys (cmd : string) (n : nat) (m m' : mstate) :
  state_at cmd n = Some m -> main_iter m = Continue m' ->
  ticks m <= TICK_CAP
  /\ ((all_empty (sys m) = true /\ sys m' = printf (EvIdle TICK_MS) (sys m))
      \/ (all_empty (sys m) = false /\ sys m' = schedule_one_tick (sys m))).
Proof.
  intros H E. rewrite (main_iter_eq _ _ (state_at_inv _ _ _ H)) in E.
  destruct (Z.gtb_spec (ticks m) TICK_CAP); [discriminate|]. split; [lia|].
  destruct (all_empty (sys m)).
  - destruct (idle m + 1 >? IDLE_CAP); [discriminate|].
    injection E as <-. left. auto.
  - injection E as <-. right. auto.
Qed.

Lemma step_descends (cmd : string) (n : nat) (m m' : mstate) :
  state_at cmd n = Some m -> main_iter m = Continue m' ->
  descends (sys m) (sys m').
Proof.
  intros H E. destruct (step_sys _ _ _ _ H E) as (_ & [(Ha & ->) | (Ha & ->)]).
  - split.
    + intros q Hq. exists q. repeat split; auto; lia.
    + exists [EvIdle TICK_MS]. split; [reflexivity|].
      intros e x [<- | []] He. discriminate.
  - apply tick_descends; [eapply state_at_wf; eauto | exact Ha].
Qed.

Lemma run_descends (cmd : string) (i j : nat) (mi mj : mstate) :
  (i <= j)%nat -> state_at cmd i = Some mi -> state_at cmd j = Some mj ->
  descends (sys mi) (sys mj).
Proof.
  intros Hle Hi. revert mj. induction j as [|j IH]; intros mj Hj.
  - assert (i = 0)%nat as -> by lia. rewrite Hi in Hj. injection Hj as <-.
    apply descends_refl.
  - destruct (Nat.eq_dec i (S j)) as [-> | Hne].
    + rewrite Hi in Hj. injection Hj as <-. apply descends_refl.
    + destruct (state_at_S_inv _ _ _ Hj) as (m & Hm & E).
      eapply descends_trans; [apply IH; [lia | exact Hm]|].
      eapply step_descends; eauto.
Qed.

Lemma state_at_nodup (cmd : string) (n : nat) (m : mstate) :
  Z.of_nat (String.length cmd) < INT_MAX ->
  state_at cmd n = Some m -> NoDup (pids (sys m)).
Proof.
  intros Hlen. revert m. induction n as [|n IH]; intros m H.
  - eapply boot_pid_inv; eauto.
  - destruct (state_at_S_inv _ _ _ H) as (m0 & H0 & E).
    destruct (step_sys _ _ _ _ H0 E) as (_ & [(_ & ->) | (_ & ->)]).
    + exact (IH _ H0).
    + apply tick_nodup; [eapply state_at_wf; eauto | exact (IH _ H0)].
Qed.

Lemma pid_determines (l : list proc) (a b : proc) :
  NoDup (map pid l) -> In a l -> In b l -> pid a = pid b -> a = b.
Proof.
  induction l as [|x l IH]; intros N Ha Hb E; [destruct Ha|].
  cbn in N. inversion N as [|? ? Hx N']; subst.
  destruct Ha as [-> | Ha], Hb as [-> | Hb]; auto.
  - exfalso. apply Hx. rewrite E. apply in_map. exact Hb.
  - exfalso. apply Hx. rewrite <- E. apply in_map. exact Ha.
Qed.

(** ** Levels over a lifetime *)

(** C4: along any run (of a command line short enough for process
    identifiers to be distinct), a process found in a queue at a later
    round is, at any earlier round, the one process with its identifier,
    at a level that is not higher-numbered than its later level; levels
    start at 0, stay within 0..2, and a process at level 2 stays there. *)
Theorem level_monotone (cmd : string) (i j : nat) (mi mj : mstate) (q : proc) :
  Z.of_nat (String.length cmd) < INT_MAX ->
  (i <= j)%nat ->
  state_at cmd i = Some mi ->
  state_at cmd j = Some mj ->
  In q (residents (sys mj)) ->
  exists p,
    In p (residents (sys mi)) /\ pid p = pid q
    /\ (forall p', In p' (residents (sys mi)) -> pid p' = pid q -> p' = p)
    /\ 0 <= level p /\ level p <= level q /\ level q <= 2
    /\ (level p = 2 -> level q = 2)
    /\ (i = 0%nat -> level p = 0).
Proof.
  intros Hlen Hle Hi Hj Hq.
  destruct (run_descends _ _ _ _ _ Hle Hi Hj) as (D & _).
  destruct (D q Hq) as (p & Hp & Ep & Hlv & Hl2).
  pose proof (state_at_nodup _ _ _ Hlen Hi) as N.
  pose proof (state_at_wf _ _ _ Hi) as Wi.
  pose proof (state_at_wf _ _ _ Hj) as Wj.
  destruct (wf_residents _ _ Wi Hp) as (qi & Hqi & (Hli & _) & Hini).
  destruct (wf_residents _ _ Wj Hq) as (qj & Hqj & (Hlj & _) & _).
  exists p. repeat split; auto; try lia.
  - intros p' Hp' Ep'. eapply pid_determines; eauto. congruence.
  - intros ->. cbn in Hi. destruct (boot_loaded _ _ Hi) as ((_ & E1 & E2 & _) & _).
    unfold queue_at in Hini.
    destruct (Z.eqb_spec qi 0) as [|Hn0]; [lia|].
    destruct (Z.eqb_spec qi 1) as [|Hn1].
    + rewrite E1 in Hini. destruct Hini.
    + rewrite E2 in Hini. destruct Hini.
Qed.

Lemma level_monotone_witness :
  Z.of_nat (String.length single_cmd) < INT_MAX
  /\ (0 <= 1)%nat
  /\ state_at single_cmd 0 = Some single_boot
  /\ state_at single_cmd 1 = Some single_1
  /\ In (mkProc 1 "spin" 90 2 1) (residents (sys single_1))
  /\ exists p, In p (residents (sys single_boot)) /\ pid p = 1 /\ level p <= 1.
Proof.
  assert (In (mkProc 1 "spin" 90 2 1) (residents (sys single_1))) as Hin
    by (cbn; auto).
  split; [reflexivity|]. split; [lia|]. split; [reflexivity|].
  split; [reflexivity|]. split; [exact Hin|].
  destruct (level_monotone single_cmd 0 1 single_boot single_1
              (mkProc 1 "spin" 90 2 1) eq_refl (Nat.le_0_l 1) eq_refl eq_refl Hin)
    as (p & Hp & Ep & _ & _ & Hl & _).
  exists p. repeat split; assumption.
Defined.

(** ** Work accounting and exit *)




(** ** The loader reads one command per [;] *)

Lemma blank_not_semi (c : ascii) : is_blank c = true -> (c =? ";")%char = false.
Proof.
  unfold is_blank. intros H. apply orb_true_iff in H.
  destruct H as [H | H]; apply Ascii.eqb_eq in H; subst; reflexivity.
Qed.

Lemma digit_not_semi (c : ascii) : is_digit c = true -> (c =? ";")%char = false.
Proof.
  intros H. destruct (Ascii.eqb_spec c ";") as [-> |]; [discriminate | reflexivity].
Qed.

Lemma wrapped_command_empty (st : sched) : wrapped_command st EmptyString = st.
Proof. reflexivity. Qed.

Lemma split_semi_shape (s : string) :
  exists tl,
    split_semi s = first_command s :: tl
    /\ forall st, fold_left wrapped_command tl st
                  = fold_left wrapped_command (split_semi (after_semi s)) st.
Proof.
  induction s as [|c r (tl & E & F)].
  - exists []. split; [reflexivity|]. intros st. reflexivity.
  - cbn [split_semi first_command]. unfold after_semi in *. cbn [skip_to_semi].
    destruct (c =? ";")%char eqn:Ec.
    + exists (split_semi r). cbn [skip_semi]. rewrite Ec. auto.
    + exists tl. rewrite E. auto.
Qed.

Lemma wrapped_commands_round (s : string) (st : sched) :
  fold_left wrapped_command (split_semi s) st
  = fold_left wrapped_command (split_semi (after_semi s))
              (wrapped_command st (first_command s)).
Proof.
  destruct (split_semi_shape s) as (tl & E & F). rewrite E. cbn [fold_left]. apply F.
Qed.

Lemma wrapped_commands_skip_seps (s : string) (st : sched) :
  fold_left wrapped_command (split_semi s) st
  = fold_left wrapped_command (split_semi (skip_seps s)) st.
Proof.
  induction s as [|a t IH]; [reflexivity|].
  cbn [skip_seps]. destruct (is_sep a) eqn:Ea; [|reflexivity].
  rewrite <- IH. cbn [split_semi]. destruct (a =? ";")%char; [reflexivity|].
  destruct (split_semi_shape t) as (tl & E & _). rewrite E. cbn [fold_left].
  f_equal. unfold wrapped_command, wrapped_work. cbn [skip_seps]. rewrite Ea. reflexivity.
Qed.

Lemma first_command_cons (s : string) (a : ascii) (x : string) :
  first_command s = String a x ->
  exists y, s = String a y /\ x = first_command y.
Proof.
  destruct s as [|c r]; cbn; [discriminate|].
  destruct (c =? ";")%char; [discriminate|].
  intros H. injection H as -> <-. eauto.
Qed.

Lemma is_spin_app (r : string) : is_spin ("spin" ++ r) = true.
Proof.
  unfold is_spin. apply prefix_correct. cbn. destruct r; reflexivity.
Qed.

Lemma is_spin_first_command (s : string) :
  is_spin (first_command s) = is_spin s.
Proof.
  destruct (is_spin s) eqn:E.
  - destruct (is_spin_inv _ E) as (r & ->).
    change (first_command ("spin" ++ r)) with ("spin" ++ first_command r)%string.
    apply is_spin_app.
  - destruct (is_spin (first_command s)) eqn:E'; [|reflexivity].
    destruct (is_spin_inv _ E') as (r & Hr). cbn in Hr.
    apply first_command_cons in Hr. destruct Hr as (y1 & -> & Hr).
    symmetry in Hr. apply first_command_cons in Hr. destruct Hr as (y2 & -> & Hr).
    symmetry in Hr. apply first_command_cons in Hr. destruct Hr as (y3 & -> & Hr).
    symmetry in Hr. apply first_command_cons in Hr. destruct Hr as (y4 & -> & Hr).
    change (is_spin ("spin" ++ y4) = false) in E.
    rewrite is_spin_app in E. discriminate E.
Qed.

Lemma skip_blanks_first_command (s : string) :
  skip_blanks (first_command s) = first_command (skip_blanks s).
Proof.
  induction s as [|c r IH]; [reflexivity|]. cbn [first_command skip_blanks].
  destruct (is_blank c) eqn:Eb.
  - rewrite (blank_not_semi _ Eb). cbn [skip_blanks]. rewrite Eb. exact IH.
  - cbn [first_command]. destruct (c =? ";")%char; [reflexivity|].
    cbn [skip_blanks]. rewrite Eb. reflexivity.
Qed.

Lemma parse_int_first_command (s : string) (ms : Z) :
  fst (parse_int ms (first_command s)) = fst (parse_int ms s).
Proof.
  revert ms. induction s as [|c r IH]; intros ms; [reflexivity|].
  cbn [first_command parse_int]. destruct (is_digit c) eqn:Ed.
  - rewrite (digit_not_semi _ Ed). cbn [parse_int]. rewrite Ed. apply IH.
  - destruct (c =? ";")%char; [reflexivity|]. cbn [parse_int]. rewrite Ed. reflexivity.
Qed.

Lemma after_semi_skip_blanks (s : string) :
  after_semi (skip_blanks s) = after_semi s.
Proof.
  induction s as [|c r IH]; [reflexivity|]. cbn [skip_blanks].
  destruct (is_blank c) eqn:Eb; [|reflexivity].
  rewrite IH. unfold after_semi. cbn [skip_to_semi].
  rewrite (blank_not_semi _ Eb). reflexivity.
Qed.

Lemma after_semi_parse_int (s : string) (ms : Z) :
  after_semi (snd (parse_int ms s)) = after_semi s.
Proof.
  revert ms. induction s as [|c r IH]; intros ms; [reflexivity|].
  cbn [parse_int]. destruct (is_digit c) eqn:Ed; [|reflexivity].
  rewrite IH. unfold after_semi. cbn [skip_to_semi].
  rewrite (digit_not_semi _ Ed). reflexivity.
Qed.

(** One round of the loop, read as one command. *)
Lemma spin_command_round (c : ascii) (r : string) (st : sched) :
  is_sep c = false ->
  snd (spin_command (String c r) st)
  = wrapped_command st (first_command (String c r))
  /\ after_semi (fst (spin_command (String c r) st)) = after_semi (String c r).
Proof.
  intros Hc. pose proof (is_sep_semi _ Hc) as Hsemi.
  assert (skip_seps (first_command (String c r)) = first_command (String c r)) as Es.
  { cbn [first_command]. rewrite Hsemi. cbn [skip_seps]. rewrite Hc. reflexivity. }
  unfold wrapped_command, wrapped_work, spin_command. rewrite Es.
  rewrite is_spin_first_command.
  destruct (is_spin (String c r)) eqn:E; [|split; reflexivity].
  destruct (is_spin_inv _ E) as (t & Ht). rewrite Ht.
  change (first_command ("spin" ++ t)) with ("spin" ++ first_command t)%string.
  change (advance 4 ("spin" ++ first_command t)) with (first_command t).
  change (advance 4 ("spin" ++ t)) with t.
  rewrite skip_blanks_first_command, parse_int_first_command.
  pose proof (after_semi_parse_int (skip_blanks t) 0) as Ha.
  destruct (parse_int 0 (skip_blanks t)) as [ms s']. cbn [fst snd] in *.
  split.
  - destruct (ms >? 0); reflexivity.
  - rewrite Ha, after_semi_skip_blanks. reflexivity.
Qed.

Lemma userinit_spin_loop_commands (fuel : nat) (s : string) (st : sched) :
  (String.length s <= fuel)%nat ->
  userinit_spin_loop fuel s st
  = Some (fold_left wrapped_command (split_semi s) st).
Proof.
  revert s st. induction fuel as [|f IH]; intros s st Hlen.
  - destruct s; [reflexivity | cbn in Hlen; lia].
  - destruct s as [|a t]; [reflexivity|].
    rewrite wrapped_commands_skip_seps. cbn [userinit_spin_loop].
    destruct (skip_seps (String a t)) as [|c r] eqn:E; [reflexivity|].
    pose proof (skip_seps_head _ _ _ E) as Hc.
    pose proof (round_progress c r st Hc) as Hp.
    pose proof (skip_seps_length (String a t)) as Hs. rewrite E in Hs.
    destruct (spin_command_round c r st Hc) as (E1 & E2).
    rewrite wrapped_commands_round, <- E1, <- E2.
    destruct (spin_command (String c r) st) as [s2 st2]. cbn [fst snd] in *.
    apply IH. unfold after_semi. lia.
Qed.

(** ** Reading a decimal amount *)

Lemma uint_val_ge (d : Decimal.uint) (acc : Z) : 0 <= acc -> acc <= uint_val acc d.
Proof.
  revert acc. induction d as [|d IH|d IH|d IH|d IH|d IH|d IH|d IH|d IH|d IH|d IH];
    intros acc Ha; cbn [uint_val]; [lia| | | | | | | | | |];
    (etransitivity; [|apply IH]; lia).
Qed.

Ltac digit_step IH d acc c k :=
  change (is_digit c) with true; change (digit_val c) with k; cbv iota;
  pose proof (uint_val_ge d (acc * 10 + k));
  rewrite wrap_id by (unfold INT_MIN, INT_MAX in *; lia);
  apply IH; auto; lia.

Lemma parse_uint (d : Decimal.uint) (acc : Z) (rest : string) :
  no_digit_ahead rest -> 0 <= acc -> uint_val acc d <= INT_MAX ->
  parse_int acc (NilEmpty.string_of_uint d ++ rest) = (uint_val acc d, rest).
Proof.
  revert acc. induction d as [|d IH|d IH|d IH|d IH|d IH|d IH|d IH|d IH|d IH|d IH];
    intros acc Hr Ha Hm;
    cbn [NilEmpty.string_of_uint append uint_val parse_int] in *.
  - destruct rest as [|c r]; [reflexivity|]. cbn in Hr |- *. rewrite Hr. reflexivity.
  - digit_step IH d acc "0"%char 0.
  - digit_step IH d acc "1"%char 1.
  - digit_step IH d acc "2"%char 2.
  - digit_step IH d acc "3"%char 3.
  - digit_step IH d acc "4"%char 4.
  - digit_step IH d acc "5"%char 5.
  - digit_step IH d acc "6"%char 6.
  - digit_step IH d acc "7"%char 7.
  - digit_step IH d acc "8"%char 8.
  - digit_step IH d acc "9"%char 9.
Qed.

Lemma uint_val_acc (d : Decimal.uint) (acc : positive) :
  uint_val (Z.pos acc) d = Z.pos (Pos.of_uint_acc d acc).
Proof.
  revert acc. induction d as [|d IH|d IH|d IH|d IH|d IH|d IH|d IH|d IH|d IH|d IH];
    intros acc; cbn [uint_val Pos.of_uint_acc]; [reflexivity| | | | | | | | | |];
    rewrite <- IH; f_equal; lia.
Qed.

Lemma uint_val_of_uint (d : Decimal.uint) :
  uint_val 0 d = Z.of_N (Pos.of_uint d).
Proof.
  induction d as [|d IH|d IH|d IH|d IH|d IH|d IH|d IH|d IH|d IH|d IH];
    cbn [uint_val Pos.of_uint]; [reflexivity | exact IH | | | | | | | | |];
    cbn [Z.mul Z.add Z.of_N]; apply uint_val_acc.
Qed.

Lemma uint_val_to_uint (p : positive) : uint_val 0 (Pos.to_uint p) = Z.pos p.
Proof.
  rewrite uint_val_of_uint, DecimalPos.Unsigned.of_to. reflexivity.
Qed.

Lemma dec_pos (p : positive) :
  dec (Z.pos p) = NilEmpty.string_of_uint (Pos.to_uint p).
Proof.
  unfold dec. cbn [Z.to_int NilZero.string_of_int].
  pose proof (DecimalPos.Unsigned.to_uint_nonnil p) as Hn.
  unfold NilZero.string_of_uint. destruct (Pos.to_uint p); congruence.
Qed.

(** ** Command lines in the documented form *)

Lemma first_command_digits (d : Decimal.uint) (x : string) :
  first_command (NilEmpty.string_of_uint d ++ x)
  = (NilEmpty.string_of_uint d ++ first_command x)%string.
Proof.
  induction d; cbn [NilEmpty.string_of_uint append first_command];
    [reflexivity | | | | | | | | | |];
    match goal with
    | |- context [Ascii.eqb ?c ";"] => change (Ascii.eqb c ";") with false
    end; cbv iota; rewrite IHd; reflexivity.
Qed.

Lemma after_semi_digits (d : Decimal.uint) (x : string) :
  after_semi (NilEmpty.string_of_uint d ++ x) = after_semi x.
Proof.
  unfold after_semi.
  induction d; cbn [NilEmpty.string_of_uint append skip_to_semi];
    [reflexivity | | | | | | | | | |];
    match goal with
    | |- context [Ascii.eqb ?c ";"] => change (Ascii.eqb c ";") with false
    end; cbv iota; exact IHd.
Qed.

Lemma skip_blanks_digits (d : Decimal.uint) (x : string) :
  d <> Decimal.Nil ->
  skip_blanks (NilEmpty.string_of_uint d ++ x)
  = (NilEmpty.string_of_uint d ++ x)%string.
Proof. destruct d; intros H; [congruence | | | | | | | | | |]; reflexivity. Qed.

Lemma wrapped_work_spin_line (p : positive) :
  Z.pos p <= INT_MAX ->
  wrapped_work ("spin " ++ dec (Z.pos p) ++ " &") = Some (Z.pos p).
Proof.
  intros Hm. unfold wrapped_work.
  change (skip_seps ("spin " ++ dec (Z.pos p) ++ " &"))
    with ("spin" ++ (" " ++ dec (Z.pos p) ++ " &"))%string.
  rewrite is_spin_app.
  change (advance 4 ("spin" ++ (" " ++ dec (Z.pos p) ++ " &")))
    with (" " ++ dec (Z.pos p) ++ " &")%string.
  change (skip_blanks (" " ++ dec (Z.pos p) ++ " &"))
    with (skip_blanks (dec (Z.pos p) ++ " &")).
  rewrite dec_pos, skip_blanks_digits by apply DecimalPos.Unsigned.to_uint_nonnil.
  rewrite parse_uint; rewrite ?uint_val_to_uint; cbn [fst]; try lia.
  - reflexivity.
  - reflexivity.
Qed.

Lemma wrapped_commands_workload (ns : list Z) (st : sched) :
  Forall (fun n => 0 < n <= INT_MAX) ns ->
  wrapped_commands (workload ns) st
  = fold_left (fun st n => new_proc "spin" n st) ns st.
Proof.
  intros H. revert st. induction H as [|n r Hn Hr IH]; intros st; [reflexivity|].
  destruct n as [|p|p]; try lia.
  unfold wrapped_commands in *. cbn [workload fold_left].
  rewrite wrapped_commands_round.
  change (first_command ("spin " ++ dec (Z.pos p) ++ " &; " ++ workload r))
    with ("spin " ++ first_command (dec (Z.pos p) ++ " &; " ++ workload r))%string.
  change (after_semi ("spin " ++ dec (Z.pos p) ++ " &; " ++ workload r))
    with (after_semi (dec (Z.pos p) ++ " &; " ++ workload r)).
  rewrite dec_pos, first_command_digits, after_semi_digits. rewrite <- dec_pos.
  change (first_command (" &; " ++ workload r)) with " &".
  change (after_semi (" &; " ++ workload r)) with (" " ++ workload r)%string.
  rewrite wrapped_commands_skip_seps.
  change (skip_seps (" " ++ workload r)) with (skip_seps (workload r)).
  rewrite <- wrapped_commands_skip_seps.
  unfold wrapped_command at 2. rewrite (wrapped_work_spin_line p) by lia.
  apply IH.
Qed.

Lemma fold_new_proc (ns : list Z) (st : sched) :
  let st' := fold_left (fun st n => new_proc "spin" n st) ns st in
  map work_left (L0 st') = map work_left (L0 st) ++ ns
  /\ map name (L0 st') = map name (L0 st) ++ repeat "spin" (List.length ns)
  /\ map level (L0 st') = map level (L0 st) ++ repeat 0 (List.length ns)
  /\ L1 st' = L1 st /\ L2 st' = L2 st /\ out st' = out st.
Proof.
  revert st. induction ns as [|n r IH]; intros st; cbn [fold_left].
  - cbn. rewrite !app_nil_r. auto 10.
  - destruct (IH (new_proc "spin" n st)) as (Hw & Hn & Hl & H1 & H2 & Ho).
    cbv zeta. rewrite Hw, Hn, Hl, H1, H2, Ho.
    unfold new_proc, q_push. cbn [L0 L1 L2 out set_L0 set_next_pid].
    rewrite !map_app, <- !app_assoc. cbn. auto 10.
Qed.

(** ** Amounts that fit an [int] *)

Lemma digit_val_range (c : ascii) :
  is_digit c = true -> 0 <= digit_val c <= 9.
Proof.
  unfold is_digit, digit_val. intros H. apply andb_true_iff in H.
  destruct H as (H1 & H2). apply Nat.leb_le in H1, H2. lia.
Qed.

Lemma parse_amount_ge (s : string) (acc : Z) :
  0 <= acc -> acc <= parse_amount acc s.
Proof.
  revert acc. induction s as [|c r IH]; intros acc Ha; cbn [parse_amount]; [lia|].
  destruct (is_digit c) eqn:Ed; [|lia].
  pose proof (digit_val_range c Ed). specialize (IH (acc * 10 + digit_val c)). lia.
Qed.

(** Below [INT_MAX] the loader's arithmetic is plain arithmetic. *)
Lemma parse_int_exact (s : string) (acc : Z) :
  0 <= acc -> parse_amount acc s <= INT_MAX ->
  fst (parse_int acc s) = parse_amount acc s.
Proof.
  revert acc. induction s as [|c r IH]; intros acc Ha Hm;
    cbn [parse_amount parse_int] in *; [reflexivity|].
  destruct (is_digit c) eqn:Ed; [|reflexivity].
  pose proof (digit_val_range c Ed).
  pose proof (parse_amount_ge r (acc * 10 + digit_val c)).
  rewrite wrap_id by (unfold INT_MIN, INT_MAX in *; lia).
  apply IH; [lia | exact Hm].
Qed.

Lemma wrapped_work_exact (c : string) :
  command_fits c = true -> wrapped_work c = command_work c.
Proof.
  unfold command_fits, wrapped_work, command_work. cbv zeta.
  destruct (is_spin (skip_seps c)); [|reflexivity].
  intros H. apply Z.leb_le in H.
  rewrite parse_int_exact by (lia || exact H). reflexivity.
Qed.

Lemma wrapped_commands_exact (segs : list string) (st : sched) :
  forallb command_fits segs = true ->
  fold_left wrapped_command segs st = fold_left load_command segs st.
Proof.
  revert st. induction segs as [|c segs IH]; intros st H; [reflexivity|].
  cbn [forallb] in H. apply andb_true_iff in H. destruct H as (Hc & Hs).
  cbn [fold_left]. unfold wrapped_command at 2, load_command at 2.
  rewrite (wrapped_work_exact _ Hc). apply IH. exact Hs.
Qed.

Lemma userinit_spin_fits (cmd : string) (st : sched) :
  amounts_fit cmd = true ->
  userinit_spin cmd st = Some (load_commands cmd st).
Proof.
  intros H. unfold userinit_spin, load_commands.
  rewrite userinit_spin_loop_commands by lia.
  unfold wrapped_commands. rewrite (wrapped_commands_exact _ _ H). reflexivity.
Qed.

(** C9, counterexample: [spin] followed by blanks and a positive amount
    creates no process when it is not the first word of its command:
    after [echo], and after a [&] that no [;] follows. *)
Lemma spin_not_first_word :
  userinit_spin "echo spin 5;" init_sched = Some init_sched
  /\ userinit_spin "spin 10 & spin 20 &" init_sched
     = Some (mkSched [mkProc 1 "spin" 10 1 0] [] [] 2 []).
Proof. split; reflexivity. Qed.

(** C9, amended: on a line none of whose amounts exceeds [INT_MAX], the
    loader reads the line as commands separated by [;].  In each command
    it skips leading blanks, [;] and [&]; when the text then starts with
    [spin] it skips blanks and reads the run of digits that follows, and a
    positive amount creates one process named [spin] with that work, at
    level 0 with the level-0 quantum, at the tail of queue 0; everything
    else up to the next [;] is skipped, and a command with another first
    word, with no digits or with amount zero creates nothing.  A line of
    commands [spin n &;] with amounts from 1 to [INT_MAX] creates one
    process per command, in the order written. *)
Theorem loader_reads_commands :
  (forall cmd st,
     amounts_fit cmd = true ->
     userinit_spin cmd st = Some (load_commands cmd st))
  /\ (forall ms st,
        L0 (new_proc "spin" ms st)
        = L0 st ++ [mkProc (next_pid st) "spin" ms Q_L0 0]
        /\ L1 (new_proc "spin" ms st) = L1 st
        /\ L2 (new_proc "spin" ms st) = L2 st
        /\ out (new_proc "spin" ms st) = out st)
  /\ (forall ns st,
        Forall (fun n => 0 < n <= INT_MAX) ns ->
        exists st',
          userinit_spin (workload ns) st = Some st'
          /\ map work_left (L0 st') = map work_left (L0 st) ++ ns
          /\ map name (L0 st')
             = map name (L0 st) ++ repeat "spin" (List.length ns)
          /\ map level (L0 st')
             = map level (L0 st) ++ repeat 0 (List.length ns)
          /\ L1 st' = L1 st /\ L2 st' = L2 st /\ out st' = out st)
  /\ command_work "spin 0 &" = None
  /\ command_work "spin x" = None
  /\ command_work "spin" = None
  /\ command_work "echo spin 5" = None
  /\ command_work " & spin7 &" = Some 7.
Proof.
  split; [exact userinit_spin_fits|].
  split; [|split; [|repeat split; reflexivity]].
  - intros ms st. repeat split; reflexivity.
  - intros ns st H. eexists.
    split; [unfold userinit_spin; apply userinit_spin_loop_commands; lia|].
    fold (wrapped_commands (workload ns) st).
    rewrite (wrapped_commands_workload _ _ H). apply fold_new_proc.
Qed.

Lemma loader_reads_commands_witness :
  amounts_fit mixed_cmd = true
  /\ userinit_spin mixed_cmd init_sched
     = Some (load_commands mixed_cmd init_sched)
  /\ Forall (fun n => 0 < n <= INT_MAX) [10; 20; 40]
  /\ workload [10; 20; 40] = "spin 10 &; spin 20 &; spin 40 &; "
  /\ exists st',
       userinit_spin (workload [10; 20; 40]) init_sched = Some st'
       /\ map work_left (L0 st') = [10; 20; 40].
Proof.
  assert (Forall (fun n => 0 < n <= INT_MAX) [10; 20; 40]) as H
    by (repeat constructor; unfold INT_MAX; lia).
  destruct loader_reads_commands as (Hc & _ & Hw & _).
  split; [reflexivity|].
  split; [exact (Hc mixed_cmd init_sched eq_refl)|].
  split; [exact H|]. split; [reflexivity|].
  destruct (Hw [10; 20; 40] init_sched H) as (st' & E & Ework & _).
  exists st'. split; [exact E | exact Ework].
Defined.

(** ** The scenarios of the specification, run *)

(** Scenario A: the first process exits after its first tick, still at
    level 0; the whole trace. *)
Example scenario_a_trace :
  option_map (fun m => out (sys m)) (main (Some scenario_a))
  = Some ([EvRun "spin" 1 10 0; EvExit "spin" 1;
           EvRun "spin" 2 10 0;
           EvRun "spin" 3 10 0;
           EvRun "spin" 2 10 1; EvExit "spin" 2;
           EvRun "spin" 3 10 1;
           EvRun "spin" 3 10 1;
           EvRun "spin" 3 10 2; EvExit "spin" 3]
          ++ repeat (EvIdle 10) 10).
Proof. vm_compute. reflexivity. Qed.

(** Scenario B: a single process goes through levels 0, 1 and 2 and
    then stays at level 2 until its work is done. *)
Example scenario_b_levels :
  option_map (fun m => map (fun e => match e with
                                     | EvRun _ _ _ l => Some l
                                     | _ => None
                                     end) (out (sys m)))
             (main (Some single_cmd))
  = Some ([Some 0; Some 1; Some 1; Some 2; Some 2; Some 2; Some 2;
           Some 2; Some 2; Some 2; None] ++ repeat None 10).
Proof. vm_compute. reflexivity. Qed.

Example scenario_a_stdout :
  stdout (sys scenario_a_1)
  = ("Process spin 1 has consumed 10 ms in L0" ++ nl
     ++ "Process spin 1 EXIT" ++ nl)%string.
Proof. reflexivity. Qed.

(** The three shapes of a trace line. *)
Example trace_lines :
  render (EvRun "spin" 3 10 2)
  = ("Process spin 3 has consumed 10 ms in L2" ++ nl)%string
  /\ render (EvExit "spin" 3) = ("Process spin 3 EXIT" ++ nl)%string
  /\ render (EvIdle TICK_MS)
     = ("Process idle 0 has consumed 10 ms in IDLE" ++ nl)%string.
Proof. repeat split; reflexivity. Qed.

(** * Further properties of the code *)

(** ** The intrusive queue is a FIFO list *)

Lemma chain_frame (nx nx' : Intrusive.links) (l : list nat) (h : Intrusive.ptr) :
  (forall a, In a l -> nx' a = nx a) ->
  Intrusive.chain nx h l -> Intrusive.chain nx' h l.
Proof.
  revert h. induction l as [|a l IH]; intros h Hf Hc; [exact Hc|].
  destruct Hc as (Hh & Hc). split; [exact Hh|].
  rewrite (Hf a (in_eq _ _)). apply IH; [|exact Hc].
  intros b Hb. apply Hf. right. exact Hb.
Qed.

Lemma set_next_same (nx : Intrusive.links) (p : nat) (v : Intrusive.ptr) :
  Intrusive.set_next nx p v p = v.
Proof. unfold Intrusive.set_next. rewrite Nat.eqb_refl. reflexivity. Qed.

Lemma set_next_other (nx : Intrusive.links) (p a : nat) (v : Intrusive.ptr) :
  a <> p -> Intrusive.set_next nx p v a = nx a.
Proof.
  intros H. unfold Intrusive.set_next.
  destruct (Nat.eqb_spec a p); [contradiction | reflexivity].
Qed.

Lemma last_in (a : nat) (l : list nat) : In (last (a :: l) O) (a :: l).
Proof.
  revert a. induction l as [|b l IH]; intros a; [left; reflexivity|].
  right. apply IH.
Qed.

(** Linking [p] behind the last cell of a non-empty chain. *)
Lemma chain_snoc (nx : Intrusive.links) (a : nat) (l : list nat)
    (h : Intrusive.ptr) (p : nat) :
  NoDup (a :: l) -> ~ In p (a :: l) ->
  Intrusive.chain nx h (a :: l) ->
  Intrusive.chain
    (Intrusive.set_next (Intrusive.set_next nx p None) (last (a :: l) O) (Some p))
    h ((a :: l) ++ [p]).
Proof.
  revert a h. induction l as [|b l IH]; intros a h Hnd Hp Hc.
  - destruct Hc as (Hh & Hn). cbn [last app Intrusive.chain].
    split; [exact Hh|]. rewrite set_next_same. split; [reflexivity|].
    rewrite set_next_other, set_next_same; [reflexivity|].
    intros ->. apply Hp. left. reflexivity.
  - destruct Hc as (Hh & Hc). inversion Hnd as [|? ? Ha Hnd']; subst.
    change (last (a :: b :: l) O) with (last (b :: l) O).
    set (NX := Intrusive.set_next (Intrusive.set_next nx p None)
                 (last (b :: l) O) (Some p)).
    change (Some a = Some a
            /\ Intrusive.chain NX (NX a) ((b :: l) ++ [p])).
    split; [reflexivity|].
    replace (NX a) with (nx a).
    + apply (IH b (nx a) Hnd'); [|exact Hc].
      intros Hin. apply Hp. right. exact Hin.
    + unfold NX. rewrite !set_next_other; [reflexivity | |].
      * intros ->. apply Hp. left. reflexivity.
      * intros E. apply Ha. rewrite E. apply last_in.
Qed.

Lemma last_snoc (l : list nat) (p : nat) : last (l ++ [p]) O = p.
Proof. apply last_last. Qed.

Lemma push_repr (nx : Intrusive.links) (q : Intrusive.queue_t)
    (l : list nat) (p : nat) :
  Intrusive.repr nx q l -> ~ In p l ->
  exists nx' q',
    Intrusive.q_push nx q p = Some (nx', q')
    /\ Intrusive.repr nx' q' (l ++ [p])
    /\ forall a, a <> p -> Intrusive.tail q <> Some a -> nx' a = nx a.
Proof.
  intros (Hc & Hnd & Ht) Hp. unfold Intrusive.q_push.
  destruct l as [|a l].
  - cbn in Hc, Ht. rewrite Hc. eexists. eexists. split; [reflexivity|].
    split.
    + unfold Intrusive.repr. cbn. rewrite set_next_same.
      repeat split; auto. constructor; [intros [] | constructor].
    + intros b Hb _. apply set_next_other. exact Hb.
  - pose proof Hc as (Hh & _). rewrite Hh, Ht. cbn [Intrusive.last_ptr].
    eexists. eexists. split; [reflexivity|]. split.
    + unfold Intrusive.repr. cbn [Intrusive.head Intrusive.tail].
      rewrite <- Hh. split; [apply chain_snoc; assumption|]. split.
      * apply NoDup_app; [exact Hnd | constructor; [intros [] | constructor] |].
        intros x Hx [<- | []]. contradiction.
      * change ((a :: l) ++ [p]) with (a :: (l ++ [p])).
        cbn [Intrusive.last_ptr]. f_equal. symmetry.
        exact (last_snoc (a :: l) p).
    + intros b Hb Hb'. rewrite !set_next_other; auto; congruence.
Qed.

Lemma pop_repr (nx : Intrusive.links) (q : Intrusive.queue_t)
    (a : nat) (l : list nat) :
  Intrusive.repr nx q (a :: l) ->
  exists nx' q',
    Intrusive.q_pop nx q = (nx', q', Some a)
    /\ Intrusive.repr nx' q' l
    /\ nx' a = None
    /\ forall b, b <> a -> nx' b = nx b.
Proof.
  intros ((Hh & Hc) & Hnd & Ht). unfold Intrusive.q_pop. rewrite Hh.
  inversion Hnd as [|? ? Ha Hnd']; subst.
  eexists. eexists. split; [reflexivity|]. split; [|split].
  - unfold Intrusive.repr. cbn [Intrusive.head Intrusive.tail]. split; [|split].
    + apply (chain_frame nx); [|exact Hc].
      intros b Hb. apply set_next_other. intros ->. contradiction.
    + exact Hnd'.
    + destruct l as [|b l]; cbn in Hc.
      * rewrite Hc. reflexivity.
      * destruct Hc as (-> & _). rewrite Ht. reflexivity.
  - apply set_next_same.
  - intros b Hb. apply set_next_other. exact Hb.
Qed.

Lemma repr_frame (nx nx' : Intrusive.links) (q : Intrusive.queue_t)
    (l : list nat) :
  (forall a, In a l -> nx' a = nx a) ->
  Intrusive.repr nx q l -> Intrusive.repr nx' q l.
Proof.
  intros Hf (Hc & Hnd & Ht). split; [|split; assumption].
  eapply chain_frame; eauto.
Qed.

Lemma repr_empty_queue (nx : Intrusive.links) (q : Intrusive.queue_t) :
  Intrusive.repr nx q [] -> q = Intrusive.empty.
Proof.
  intros (Hc & _ & Ht). destruct q as [h t]. cbn in *. subst. reflexivity.
Qed.

Lemma fill_repr (ps : list nat) (nx : Intrusive.links)
    (q : Intrusive.queue_t) (l : list nat) :
  Intrusive.repr nx q l -> NoDup (l ++ ps) ->
  exists nx' q',
    Intrusive.fill nx q ps = Some (nx', q') /\ Intrusive.repr nx' q' (l ++ ps).
Proof.
  revert nx q l. induction ps as [|p r IH]; intros nx q l Hr Hnd.
  - exists nx, q. rewrite app_nil_r. split; [reflexivity | exact Hr].
  - assert (~ In p l) as Hp.
    { intros Hin. apply NoDup_remove_2 in Hnd. apply Hnd.
      apply in_or_app. left. exact Hin. }
    destruct (push_repr nx q l p Hr Hp) as (nx1 & q1 & E & Hr1 & _).
    cbn [Intrusive.fill]. rewrite E.
    replace (l ++ p :: r) with ((l ++ [p]) ++ r) in *
      by (rewrite <- app_assoc; reflexivity).
    apply IH; assumption.
Qed.

Lemma drain_keeps (b : nat) (m : nat) (nxa : Intrusive.links)
    (qa : Intrusive.queue_t) (la : list nat) :
  Intrusive.repr nxa qa la -> ~ In b la ->
  forall nxb r, Intrusive.drain m nxa qa = (r, (nxb, Intrusive.empty)) ->
                nxb b = nxa b.
Proof.
  revert nxa qa la. induction m as [|m IHm]; intros nxa qa la Hra Hb nxb r Ed.
  - cbn in Ed. injection Ed as _ <- _. reflexivity.
  - destruct la as [|c la].
    + rewrite (repr_empty_queue _ _ Hra) in Ed. cbn in Ed.
      injection Ed as _ <- . reflexivity.
    + destruct (pop_repr nxa qa c la Hra) as (nx1 & q1 & E & Hr1 & _ & Hf1).
      cbn [Intrusive.drain] in Ed. rewrite E in Ed.
      destruct (Intrusive.drain m nx1 q1) as [l1 [nx2 q2]] eqn:Ed1.
      injection Ed as _ <- ->.
      rewrite (IHm nx1 q1 la Hr1 (fun H => Hb (or_intror H)) _ _ Ed1).
      apply Hf1. intros ->. apply Hb. left. reflexivity.
Qed.

Lemma drain_repr (l : list nat) (n : nat) (nx : Intrusive.links)
    (q : Intrusive.queue_t) :
  Intrusive.repr nx q l -> (List.length l < n)%nat ->
  exists nx',
    Intrusive.drain n nx q = (l, (nx', Intrusive.empty))
    /\ forall a, In a l -> nx' a = None.
Proof.
  revert n nx q. induction l as [|a l IH]; intros n nx q Hr Hn.
  - destruct n as [|n]; [cbn in Hn; lia|].
    rewrite (repr_empty_queue _ _ Hr). exists nx. split; [reflexivity|].
    intros a [].
  - destruct n as [|n]; [cbn in Hn; lia|].
    pose proof Hr as (_ & Hnd & _). inversion Hnd as [|? ? Ha Hnd']; subst.
    destruct (pop_repr nx q a l Hr) as (nx1 & q1 & E & Hr1 & Hn1 & Hf1).
    cbn [Intrusive.drain]. rewrite E.
    destruct (IH n nx1 q1 Hr1) as (nx2 & E2 & Hnone); [cbn in Hn; lia|].
    rewrite E2. exists nx2. split; [reflexivity|].
    intros b [Hb | Hb]; [subst b | apply Hnone; exact Hb].
    rewrite (drain_keeps a n nx1 q1 l Hr1 Ha nx2 l E2). exact Hn1.
Qed.

(** X1: [q_push] on a queue that holds [l], for a process [p] not in it,
    never dereferences [NULL], makes the queue hold [l ++ [p]], and writes
    no [next] field other than [p]'s and the old tail's. *)
Theorem intrusive_push_appends (nx : Intrusive.links) (q : Intrusive.queue_t)
    (l : list nat) (p : nat) :
  Intrusive.repr nx q l -> ~ In p l ->
  exists nx' q',
    Intrusive.q_push nx q p = Some (nx', q')
    /\ Intrusive.repr nx' q' (l ++ [p])
    /\ forall a, a <> p -> Intrusive.tail q <> Some a -> nx' a = nx a.
Proof. apply push_repr. Qed.

Lemma intrusive_push_appends_witness :
  Intrusive.repr links_3_5 queue_3_5 [3%nat; 5%nat]
  /\ ~ In 7%nat [3%nat; 5%nat]
  /\ exists nx' q',
       Intrusive.q_push links_3_5 queue_3_5 7 = Some (nx', q')
       /\ Intrusive.repr nx' q' [3%nat; 5%nat; 7%nat].
Proof.
  assert (Intrusive.repr links_3_5 queue_3_5 [3%nat; 5%nat]) as Hr.
  { split; [|split].
    - cbn. repeat split.
    - constructor; [|constructor; [intros [] | constructor]].
      cbn. intros [H | H]; [discriminate H | exact H].
    - reflexivity. }
  assert (~ In 7%nat [3%nat; 5%nat]) as Hp.
  { cbn. intros [H | [H | H]]; try discriminate H; exact H. }
  split; [exact Hr|]. split; [exact Hp|].
  destruct (intrusive_push_appends links_3_5 queue_3_5 [3%nat; 5%nat] 7 Hr Hp)
    as (nx' & q' & E & Hr' & _).
  exists nx', q'. split; assumption.
Defined.

(** X2: [q_pop] on a queue that holds [l] returns [NULL] and changes
    nothing when [l] is empty; otherwise it returns the head, leaves the
    queue holding the rest, sets the popped process's [next] to [NULL] and
    writes no other [next] field. *)
Theorem intrusive_pop_head (nx : Intrusive.links) (q : Intrusive.queue_t)
    (l : list nat) :
  Intrusive.repr nx q l ->
  match l with
  | [] => Intrusive.q_pop nx q = (nx, q, None)
  | a :: l' =>
      exists nx' q',
        Intrusive.q_pop nx q = (nx', q', Some a)
        /\ Intrusive.repr nx' q' l'
        /\ nx' a = None
        /\ forall b, b <> a -> nx' b = nx b
  end.
Proof.
  intros Hr. destruct l as [|a l'].
  - rewrite (repr_empty_queue _ _ Hr). reflexivity.
  - apply pop_repr. exact Hr.
Qed.

Lemma intrusive_pop_head_witness :
  Intrusive.repr no_links (Intrusive.mkQ (Some 7%nat) (Some 7%nat)) [7%nat]
  /\ exists nx' q',
       Intrusive.q_pop no_links (Intrusive.mkQ (Some 7%nat) (Some 7%nat))
       = (nx', q', Some 7%nat)
       /\ Intrusive.repr nx' q' [].
Proof.
  assert (Intrusive.repr no_links (Intrusive.mkQ (Some 7%nat) (Some 7%nat))
            [7%nat]) as Hr.
  { repeat split. constructor; [intros [] | constructor]. }
  split; [exact Hr|].
  destruct (intrusive_pop_head no_links _ [7%nat] Hr) as (nx' & q' & E & Hr' & _).
  exists nx', q'. split; assumption.
Defined.

(** X3: two queues that hold disjoint sets of processes share the [next]
    fields without interfering: pushing a process that is in neither, or
    popping, on one of them leaves the other holding what it held. *)
Theorem intrusive_queues_independent (nx : Intrusive.links)
    (q1 q2 : Intrusive.queue_t) (l1 l2 : list nat) :
  Intrusive.repr nx q1 l1 -> Intrusive.repr nx q2 l2 ->
  (forall a, In a l1 -> ~ In a l2) ->
  (forall p, ~ In p l1 -> ~ In p l2 ->
     exists nx' q1',
       Intrusive.q_push nx q1 p = Some (nx', q1')
       /\ Intrusive.repr nx' q1' (l1 ++ [p]) /\ Intrusive.repr nx' q2 l2)
  /\ Intrusive.repr (fst (fst (Intrusive.q_pop nx q1))) q2 l2.
Proof.
  intros H1 H2 Hd. split.
  - intros p Hp1 Hp2.
    destruct (push_repr nx q1 l1 p H1 Hp1) as (nx' & q1' & E & Hr & Hf).
    exists nx', q1'. split; [exact E|]. split; [exact Hr|].
    apply (repr_frame nx); [|exact H2].
    intros a Ha. apply Hf; [intros ->; contradiction|].
    destruct H1 as (_ & _ & Ht). rewrite Ht.
    destruct l1 as [|b l1]; [discriminate|]. cbn [Intrusive.last_ptr].
    intros E'. injection E' as E'. apply (Hd a); [|exact Ha].
    rewrite <- E'. apply last_in.
  - destruct l1 as [|a l1].
    + rewrite (repr_empty_queue _ _ H1). exact H2.
    + destruct (pop_repr nx q1 a l1 H1) as (nx' & q1' & E & _ & _ & Hf).
      rewrite E. cbn [fst]. apply (repr_frame nx); [|exact H2].
      intros b Hb. apply Hf. intros ->. apply (Hd a); [left; reflexivity | exact Hb].
Qed.

Lemma intrusive_queues_independent_witness :
  Intrusive.repr links_3_5 queue_7 [7%nat]
  /\ Intrusive.repr links_3_5 queue_3_5 [3%nat; 5%nat]
  /\ (forall a, In a [7%nat] -> ~ In a [3%nat; 5%nat])
  /\ (exists nx' q1',
        Intrusive.q_push links_3_5 queue_7 9 = Some (nx', q1')
        /\ Intrusive.repr nx' q1' [7%nat; 9%nat]
        /\ Intrusive.repr nx' queue_3_5 [3%nat; 5%nat])
  /\ Intrusive.repr (fst (fst (Intrusive.q_pop links_3_5 queue_7)))
       queue_3_5 [3%nat; 5%nat].
Proof.
  assert (Intrusive.repr links_3_5 queue_7 [7%nat]) as H1.
  { repeat split. constructor; [intros [] | constructor]. }
  assert (Intrusive.repr links_3_5 queue_3_5 [3%nat; 5%nat]) as H2.
  { split; [|split].
    - cbn. repeat split.
    - constructor; [|constructor; [intros [] | constructor]].
      cbn. intros [H | H]; [discriminate H | exact H].
    - reflexivity. }
  assert (forall a, In a [7%nat] -> ~ In a [3%nat; 5%nat]) as Hd.
  { intros a [<- | []] [H | [H | H]]; try discriminate H; exact H. }
  split; [exact H1|]. split; [exact H2|]. split; [exact Hd|].
  destruct (intrusive_queues_independent links_3_5 queue_7 queue_3_5
              [7%nat] [3%nat; 5%nat] H1 H2 Hd) as (Hpush & Hpop).
  split; [|exact Hpop].
  apply (Hpush 9%nat).
  - intros [H | H]; [discriminate H | exact H].
  - intros [H | [H | H]]; try discriminate H; exact H.
Defined.

(** X4: first in, first out.  Distinct processes pushed in turn onto an
    empty queue are all accepted, and popping then returns them in the
    order pushed, after which the queue is the empty queue again
    ([head] and [tail] both [NULL]) and every popped process has
    [next = NULL]. *)
Theorem intrusive_fifo (nx : Intrusive.links) (ps : list nat) (k : nat) :
  NoDup ps ->
  exists nx1 q1 nx2,
    Intrusive.fill nx Intrusive.empty ps = Some (nx1, q1)
    /\ Intrusive.drain (S (List.length ps) + k) nx1 q1
       = (ps, (nx2, Intrusive.empty))
    /\ forall a, In a ps -> nx2 a = None.
Proof.
  intros Hnd.
  assert (Intrusive.repr nx Intrusive.empty []) as H0
    by (repeat split; constructor).
  destruct (fill_repr ps nx Intrusive.empty [] H0 Hnd) as (nx1 & q1 & E & Hr).
  cbn [app] in Hr.
  destruct (drain_repr ps (S (List.length ps) + k) nx1 q1 Hr) as (nx2 & Ed & Hn);
    [lia|].
  exists nx1, q1, nx2. auto.
Qed.

Lemma intrusive_fifo_witness :
  NoDup [3%nat; 1%nat; 2%nat]
  /\ exists nx1 q1 nx2,
       Intrusive.fill no_links Intrusive.empty [3%nat; 1%nat; 2%nat]
       = Some (nx1, q1)
       /\ Intrusive.drain 4 nx1 q1
          = ([3%nat; 1%nat; 2%nat], (nx2, Intrusive.empty)).
Proof.
  assert (NoDup [3%nat; 1%nat; 2%nat]) as Hnd.
  { repeat constructor; cbn; intros H; repeat destruct H as [H | H];
      try discriminate; assumption. }
  split; [exact Hnd|].
  destruct (intrusive_fifo no_links [3%nat; 1%nat; 2%nat] 0 Hnd)
    as (nx1 & q1 & nx2 & E & Ed & _).
  exists nx1, q1, nx2. split; assumption.
Defined.

(** ** How long a run takes *)

Lemma count_ev_app (f : event -> bool) (l l' : list event) :
  count_ev f (l ++ l') = (count_ev f l + count_ev f l')%nat.
Proof.
  unfold count_ev. induction l as [|e l IH]; [reflexivity|].
  cbn. destruct (f e); cbn; rewrite IH; reflexivity.
Qed.

Lemma sum_perm (f : proc -> Z) (l l' : list proc) :
  Permutation l l' ->
  fold_right Z.add 0 (map f l) = fold_right Z.add 0 (map f l').
Proof. induction 1; cbn; lia. Qed.

Lemma need_exit (p : proc) :
  0 < work_left p <= TICK_MS -> ticks_needed p = 1.
Proof.
  unfold ticks_needed, TICK_MS. intros H. symmetry.
  apply (Z.div_unique (work_left p + (10 - 1)) 10 1 (work_left p - 1)); lia.
Qed.

Lemma need_step (p p' : proc) :
  work_left p' = work_left p - TICK_MS -> ticks_needed p' = ticks_needed p - 1.
Proof.
  unfold ticks_needed, TICK_MS. intros ->.
  replace (work_left p - 10 + (10 - 1)) with (work_left p + (10 - 1) + (-1) * 10)
    by lia.
  rewrite Z.div_add by lia. lia.
Qed.

Lemma need_pos (p : proc) : 0 < work_left p -> 1 <= ticks_needed p.
Proof.
  unfold ticks_needed, TICK_MS. intros H.
  apply Z.div_le_lower_bound; lia.
Qed.

Lemma total_need_tick (s : sched) :
  wf s -> all_empty s = false ->
  total_need (schedule_one_tick s) = total_need s - 1.
Proof.
  intros W Hne. destruct (pick s) as [[[p qid] s1]|] eqn:H;
    [|apply pick_none in H; congruence].
  destruct (tick_effect _ _ _ _ W H)
    as (Er & Hw & [(Hle & Es) | (Hgt & _ & p' & P & _ & _ & Ew & _)]);
    unfold total_need; rewrite Er; cbn [map fold_right].
  - rewrite Es. change (residents (printf _ (printf _ s1))) with (residents s1).
    rewrite (need_exit p) by lia. lia.
  - rewrite (sum_perm _ _ _ P). cbn [map fold_right].
    rewrite (need_step p p' Ew). lia.
Qed.

Lemma total_need_residents (s : sched) :
  wf s -> Z.of_nat (List.length (residents s)) <= total_need s.
Proof.
  intros W. unfold total_need.
  assert (forall p, In p (residents s) -> 1 <= ticks_needed p) as Hp.
  { intros p Hin. destruct (wf_residents _ _ W Hin) as (q & _ & (_ & _ & Hw) & _).
    apply need_pos. lia. }
  induction (residents s) as [|a l IH]; [cbn; lia|].
  cbn [map fold_right List.length].
  pose proof (Hp a (in_eq _ _)). specialize (IH (fun p H => Hp p (in_cons _ _ _ H))).
  lia.
Qed.

Lemma total_need_zero (s : sched) :
  wf s -> (total_need s = 0 <-> all_empty s = true).
Proof.
  intros W. split.
  - intros E. pose proof (total_need_residents s W) as H. rewrite E in H.
    unfold residents, all_empty in *.
    destruct (L0 s), (L1 s), (L2 s); cbn in H; try lia; reflexivity.
  - intros E. destruct (all_empty_true _ E) as (E0 & E1 & E2).
    unfold total_need, residents. rewrite E0, E1, E2. reflexivity.
Qed.

Lemma state_at_prefix (cmd : string) (i j : nat) (mj : mstate) :
  state_at cmd j = Some mj -> (i <= j)%nat ->
  exists mi, state_at cmd i = Some mi.
Proof.
  revert mj. induction j as [|j IH]; intros mj Hj Hle.
  - assert (i = 0)%nat as -> by lia. eauto.
  - destruct (Nat.eq_dec i (S j)) as [-> |]; [eauto|].
    destruct (state_at_S_inv _ _ _ Hj) as (m & Hm & _).
    apply (IH m Hm). lia.
Qed.

(** The round that breaks is the last one, and [main] returns its
    state. *)
Lemma main_returns (arg : option string) (n : nat) (m mf : mstate) :
  state_at (cmdline_of arg) n = Some m -> main_iter m = Break mf ->
  main arg = Some mf.
Proof.
  intros Hn Hb. destruct (boot_total (cmdline_of arg)) as (m0 & Hb0).
  destruct (main_loop_stops (cmdline_of arg) MAIN_FUEL 0 m0 Hb0)
    as (k & mk & mf' & Hk & Hbk & Hm).
  { unfold MAIN_FUEL, TICK_CAP. lia. }
  unfold main. rewrite Hb0, Hm.
  assert (forall i j mi mj x, state_at (cmdline_of arg) i = Some mi ->
            main_iter mi = Break x ->
            state_at (cmdline_of arg) j = Some mj -> (j <= i)%nat) as U.
  { intros i j mi mj x Hi Hbi Hj.
    destruct (le_lt_dec j i) as [|Hlt]; [assumption|exfalso].
    destruct (state_at_prefix _ (S i) j mj Hj Hlt) as (ms & Hs).
    cbn [state_at] in Hs. rewrite Hi, Hbi in Hs. discriminate. }
  assert (k = n) as -> by
    (apply Nat.le_antisymm; [eapply (U n k) | eapply (U k n)]; eauto).
  rewrite Hk in Hn. injection Hn as ->. congruence.
Qed.

(** While work is left and the cap allows, every round dispatches. *)
Lemma active_phase (cmd : string) (m0 : mstate) (n : nat) :
  boot cmd = Some m0 ->
  Z.of_nat n <= total_need (sys m0) -> Z.of_nat n <= TICK_CAP + 1 ->
  exists m,
    state_at cmd n = Some m
    /\ total_need (sys m) = total_need (sys m0) - Z.of_nat n
    /\ idle m = 0
    /\ count_ev is_run (out (sys m)) = n
    /\ count_ev is_idle (out (sys m)) = 0%nat
    /\ (count_ev is_exit (out (sys m)) + List.length (residents (sys m))
        = List.length (residents (sys m0)))%nat.
Proof.
  intros Hb. induction n as [|n IH]; intros HN Hcap.
  - exists m0. destruct (boot_loaded _ _ Hb) as ((_ & _ & _ & Ho) & Hi & _).
    cbn [state_at]. rewrite Ho. repeat split; auto. lia.
  - destruct IH as (m & Hs & Hneed & Hidle & Hrun & Hidl & Hex); [lia | lia |].
    pose proof (state_at_inv _ _ _ Hs) as I. pose proof I as (W & Ht & _).
    assert (all_empty (sys m) = false) as Hne.
    { destruct (all_empty (sys m)) eqn:E; [|reflexivity].
      apply (total_need_zero _ W) in E. lia. }
    pose proof (main_iter_eq _ _ I) as E. rewrite Hne in E.
    destruct (Z.gtb_spec (ticks m) TICK_CAP); [lia|].
    exists (mkM (schedule_one_tick (sys m)) 0 (ticks m + 1)).
    split; [apply (state_at_S _ _ _ _ Hs E)|]. cbn [sys idle].
    split; [rewrite (total_need_tick _ W Hne); lia|]. split; [reflexivity|].
    destruct (pick (sys m)) as [[[p qid] s1]|] eqn:Hp;
      [|apply pick_none in Hp; congruence].
    destruct (pick_cases _ _ _ _ Hp) as (_ & Ho & _).
    destruct (tick_effect _ _ _ _ W Hp)
      as (Er & _ & [(_ & Es) | (_ & Eo & p' & P & _)]).
    + rewrite Es. cbn [out printf]. rewrite Ho, <- app_assoc, !count_ev_app.
      change (residents (printf _ (printf _ s1))) with (residents s1).
      rewrite Er in Hex. cbn in Hex |- *. lia.
    + rewrite Eo, !count_ev_app. rewrite (Permutation_length P).
      rewrite Er in Hex. cbn in Hex |- *. lia.
Qed.

(** With every queue empty the driver prints idle lines until it
    stops. *)
Lemma idle_phase (cmd : string) (n0 : nat) (m : mstate) (i : nat) :
  state_at cmd n0 = Some m -> all_empty (sys m) = true -> idle m = 0 ->
  Z.of_nat i <= IDLE_CAP -> Z.of_nat (n0 + i) <= TICK_CAP + 1 ->
  state_at cmd (n0 + i)
  = Some (mkM (mkSched (L0 (sys m)) (L1 (sys m)) (L2 (sys m))
                       (next_pid (sys m))
                       (out (sys m) ++ repeat (EvIdle TICK_MS) i))
              (Z.of_nat i) (ticks m + Z.of_nat i)).
Proof.
  intros Hs Ha Hi. induction i as [|i IH]; intros Hle Hcap.
  - rewrite Nat.add_0_r, Hs. destruct m as [[l0 l1 l2 np o] id t].
    cbn in *. subst. rewrite app_nil_r, Z.add_0_r. reflexivity.
  - replace (n0 + S i)%nat with (S (n0 + i)) in * by lia.
    specialize (IH ltac:(lia) ltac:(lia)).
    pose proof (state_at_inv _ _ _ IH) as I.
    pose proof (main_iter_eq _ _ I) as E. destruct I as (_ & Ht & _).
    cbn [sys idle ticks] in *.
    assert (all_empty (mkSched (L0 (sys m)) (L1 (sys m)) (L2 (sys m))
                               (next_pid (sys m))
                               (out (sys m) ++ repeat (EvIdle TICK_MS) i)) = true)
      as Ha' by exact Ha.
    rewrite Ha' in E.
    destruct (Z.gtb_spec (ticks m + Z.of_nat i) TICK_CAP); [lia|].
    destruct (Z.gtb_spec (Z.of_nat i + 1) IDLE_CAP); [lia|].
    rewrite (state_at_S _ _ _ _ IH E). f_equal. f_equal.
    + unfold printf. cbn [L0 L1 L2 next_pid out]. f_equal.
      rewrite <- app_assoc. f_equal.
      change (S i) with (1 + i)%nat. rewrite Nat.add_comm.
      rewrite repeat_app. reflexivity.
    + lia.
    + lia.
Qed.

Lemma count_ev_repeat_idle (f : event -> bool) (x : Z) (i : nat) :
  count_ev f (repeat (EvIdle x) i)
  = if f (EvIdle x) then i else 0%nat.
Proof.
  unfold count_ev. induction i as [|i IH]; cbn [repeat filter].
  - destruct (f (EvIdle x)); reflexivity.
  - destruct (f (EvIdle x)); cbn [List.length]; rewrite IH; reflexivity.
Qed.

Lemma total_need_nonneg (s : sched) : wf s -> 0 <= total_need s.
Proof. intros W. pose proof (total_need_residents s W). lia. Qed.

(** X5: on a command line whose amounts fit an [int], in every state
    the driver reaches, the ticks still needed, the
    sum over the queued processes of their work in ticks rounded up, are
    zero exactly when every queue is empty, and one call of
    [schedule_one_tick] with a non-empty queue lowers them by exactly
    one. *)
Theorem dispatch_lowers_need (cmd : string) (n : nat) (m : mstate) :
  amounts_fit cmd = true ->
  state_at cmd n = Some m ->
  (total_need (sys m) = 0 <-> all_empty (sys m) = true)
  /\ Z.of_nat (List.length (residents (sys m))) <= total_need (sys m)
  /\ (all_empty (sys m) = false ->
      total_need (schedule_one_tick (sys m)) = total_need (sys m) - 1).
Proof.
  intros _ H. pose proof (state_at_wf _ _ _ H) as W.
  split; [apply total_need_zero; exact W|].
  split; [apply total_need_residents; exact W|].
  apply total_need_tick. exact W.
Qed.

Lemma dispatch_lowers_need_witness :
  amounts_fit scenario_a = true
  /\ state_at scenario_a 0 = Some scenario_a_boot
  /\ all_empty (sys scenario_a_boot) = false
  /\ total_need (schedule_one_tick (sys scenario_a_boot))
     = total_need (sys scenario_a_boot) - 1.
Proof.
  split; [reflexivity|]. split; [reflexivity|]. split; [reflexivity|].
  exact (proj2 (proj2 (dispatch_lowers_need scenario_a 0 scenario_a_boot
                         eq_refl eq_refl)) eq_refl).
Defined.

(** X6: on a command line whose amounts fit an [int], when the loaded
    work, in ticks, plus the ten idle rounds fits under the tick cap, [main] returns with every queue empty: it has
    printed exactly one run line per tick of work, one exit line per
    loaded process and ten idle lines, and counted one tick more than it
    printed lines of the first and last kind. *)
Theorem run_to_completion (arg : option string) (m0 : mstate) :
  amounts_fit (cmdline_of arg) = true ->
  boot (cmdline_of arg) = Some m0 ->
  total_need (sys m0) + IDLE_CAP <= TICK_CAP ->
  exists mf,
    main arg = Some mf
    /\ all_empty (sys mf) = true
    /\ count_ev is_run (out (sys mf)) = Z.to_nat (total_need (sys m0))
    /\ count_ev is_exit (out (sys mf)) = List.length (residents (sys m0))
    /\ count_ev is_idle (out (sys mf)) = 10%nat
    /\ ticks mf = total_need (sys m0) + IDLE_CAP + 1
    /\ idle mf = IDLE_CAP + 1.
Proof.
  intros _ Hb Hfit.
  pose proof (total_need_nonneg (sys m0)
                (proj1 (proj1 (boot_loaded _ _ Hb)))) as Hpos.
  set (N := total_need (sys m0)) in *. set (n := Z.to_nat N).
  destruct (active_phase _ m0 n Hb) as (m & Hs & Hneed & Hidle & Hrun & Hidl & Hex);
    [unfold TICK_CAP, IDLE_CAP in *; lia .. |].
  pose proof (state_at_inv _ _ _ Hs) as (W & Ht & _).
  assert (all_empty (sys m) = true) as Ha.
  { apply (total_need_zero _ W). fold N in Hneed. lia. }
  pose proof (idle_phase _ n m 10 Hs Ha Hidle) as Hk.
  specialize (Hk ltac:(unfold IDLE_CAP; lia)
                 ltac:(unfold TICK_CAP, IDLE_CAP in *; lia)).
  pose proof (state_at_inv _ _ _ Hk) as I.
  pose proof (main_iter_eq _ _ I) as E. cbn [sys idle ticks] in E.
  assert (all_empty (mkSched (L0 (sys m)) (L1 (sys m)) (L2 (sys m))
                             (next_pid (sys m))
                             (out (sys m) ++ repeat (EvIdle TICK_MS) 10)) = true)
    as Ha' by exact Ha.
  rewrite Ha' in E.
  destruct (Z.gtb_spec (ticks m + Z.of_nat 10) TICK_CAP);
    [unfold TICK_CAP, IDLE_CAP in *; lia|].
  destruct (Z.gtb_spec (Z.of_nat 10 + 1) IDLE_CAP); [|unfold IDLE_CAP in *; lia].
  eexists. split; [exact (main_returns arg _ _ _ Hk E)|].
  cbn [sys idle ticks out]. split; [exact Ha'|].
  rewrite !count_ev_app, !count_ev_repeat_idle. cbn [is_run is_exit is_idle].
  destruct (all_empty_true _ Ha) as (E0 & E1 & E2).
  unfold residents in Hex at 1. rewrite E0, E1, E2 in Hex. cbn in Hex.
  repeat split; unfold IDLE_CAP in *; lia.
Qed.

Lemma run_to_completion_witness :
  amounts_fit (cmdline_of (Some scenario_a)) = true
  /\ boot (cmdline_of (Some scenario_a)) = Some scenario_a_boot
  /\ total_need (sys scenario_a_boot) + IDLE_CAP <= TICK_CAP
  /\ exists mf,
       main (Some scenario_a) = Some mf
       /\ count_ev is_run (out (sys mf)) = 7%nat
       /\ count_ev is_exit (out (sys mf)) = 3%nat.
Proof.
  assert (total_need (sys scenario_a_boot) + IDLE_CAP <= TICK_CAP) as Hfit
    by (vm_compute; discriminate).
  split; [reflexivity|]. split; [reflexivity|]. split; [exact Hfit|].
  destruct (run_to_completion (Some scenario_a) scenario_a_boot eq_refl
              eq_refl Hfit)
    as (mf & Hm & _ & Hrun & Hex & _).
  exists mf. repeat split; assumption.
Defined.

(** X7: on a command line whose amounts fit an [int], when the loaded
    work needs more ticks than the cap, [main] stops
    at the cap: it has dispatched in every one of its [TICK_CAP + 1]
    rounds, printed no idle line, and returns with the remaining need
    still in the queues. *)
Theorem run_cut_at_cap (arg : option string) (m0 : mstate) :
  amounts_fit (cmdline_of arg) = true ->
  boot (cmdline_of arg) = Some m0 ->
  TICK_CAP < total_need (sys m0) ->
  exists mf,
    main arg = Some mf
    /\ ticks mf = TICK_CAP + 1
    /\ count_ev is_run (out (sys mf)) = Z.to_nat (TICK_CAP + 1)
    /\ count_ev is_idle (out (sys mf)) = 0%nat
    /\ total_need (sys mf) = total_need (sys m0) - (TICK_CAP + 1).
Proof.
  intros _ Hb Hbig.
  destruct (active_phase _ m0 (Z.to_nat (TICK_CAP + 1)) Hb)
    as (m & Hs & Hneed & Hidle & Hrun & Hidl & Hex);
    [unfold TICK_CAP in *; lia .. |].
  pose proof (state_at_inv _ _ _ Hs) as I.
  pose proof (main_iter_eq _ _ I) as E. destruct I as (_ & Ht & _).
  destruct (Z.gtb_spec (ticks m) TICK_CAP); [|unfold TICK_CAP in *; lia].
  exists m. split; [exact (main_returns arg _ _ _ Hs E)|].
  repeat split; auto; unfold TICK_CAP in *; lia.
Qed.

Lemma run_cut_at_cap_witness :
  amounts_fit (cmdline_of None) = true
  /\ boot (cmdline_of None) = Some default_boot
  /\ TICK_CAP < total_need (sys default_boot)
  /\ exists mf, main None = Some mf /\ ticks mf = TICK_CAP + 1.
Proof.
  assert (TICK_CAP < total_need (sys default_boot)) as Hbig
    by (vm_compute; reflexivity).
  split; [reflexivity|]. split; [reflexivity|]. split; [exact Hbig|].
  destruct (run_cut_at_cap None default_boot eq_refl eq_refl Hbig)
    as (mf & Hm & Ht & _).
  exists mf. split; assumption.
Defined.

(** ** The shape of the trace *)

Lemma schedule_one_tick_next_pid (s : sched) :
  next_pid (schedule_one_tick s) = next_pid s.
Proof.
  unfold schedule_one_tick, select.
  destruct (pick s) as [[[p qid] s1]|] eqn:H; [|reflexivity].
  destruct (pick_cases _ _ _ _ H) as (Hn & _).
  destruct (work_left _ <=? 0); [exact Hn|].
  rewrite (proj2 (requeue_out _ _ _)). exact Hn.
Qed.

Lemma repeat_snoc {A} (x : A) (i : nat) : repeat x i ++ [x] = repeat x (S i).
Proof.
  change (S i) with (1 + i)%nat. rewrite Nat.add_comm, repeat_app. reflexivity.
Qed.

(** X8: queues never refill.  In every state the driver reaches, the
    output is run and exit lines followed by as many idle lines as the
    idle counter says, at most ten; once the counter is positive every
    queue is empty; and the pid allocator is where the loader left it. *)
Theorem trace_shape (cmd : string) (m0 : mstate) (n : nat) (m : mstate) :
  boot cmd = Some m0 ->
  state_at cmd n = Some m ->
  0 <= idle m <= IDLE_CAP
  /\ (0 < idle m -> all_empty (sys m) = true)
  /\ next_pid (sys m) = next_pid (sys m0)
  /\ exists act,
       out (sys m) = act ++ repeat (EvIdle TICK_MS) (Z.to_nat (idle m))
       /\ count_ev is_idle act = 0%nat.
Proof.
  intros Hb. revert m. induction n as [|n IH]; intros m H.
  - cbn [state_at] in H. rewrite Hb in H. injection H as <-.
    destruct (boot_loaded _ _ Hb) as ((_ & _ & _ & Ho) & Hi & _).
    rewrite Hi, Ho. unfold IDLE_CAP. split; [lia|]. split; [lia|].
    split; [reflexivity|]. exists []. split; reflexivity.
  - destruct (state_at_S_inv _ _ _ H) as (mp & Hp & E).
    destruct (IH mp Hp) as (Hi & Hall & Hnp & act & Ho & Hc).
    pose proof (state_at_inv _ _ _ Hp) as I. pose proof I as (W & _).
    rewrite (main_iter_eq _ _ I) in E.
    destruct (ticks mp >? TICK_CAP); [discriminate|].
    destruct (all_empty (sys mp)) eqn:Ha.
    + destruct (Z.gtb_spec (idle mp + 1) IDLE_CAP); [discriminate|].
      injection E as <-. cbn [sys idle out printf next_pid].
      split; [lia|]. split; [intros _; exact Ha|]. split; [exact Hnp|].
      exists act. split; [|exact Hc].
      rewrite Ho, <- app_assoc, repeat_snoc. f_equal. f_equal. lia.
    + injection E as <-. cbn [sys idle]. unfold IDLE_CAP. split; [lia|].
      split; [lia|]. split; [rewrite schedule_one_tick_next_pid; exact Hnp|].
      assert (idle mp = 0) as Hz.
      { destruct (Z.eq_dec (idle mp) 0) as [|Hnz]; [assumption|].
        assert (0 < idle mp) as Hp0 by lia. apply Hall in Hp0. congruence. }
      rewrite Hz in Ho. cbn in Ho. rewrite app_nil_r in Ho.
      destruct (pick (sys mp)) as [[[p qid] s1]|] eqn:Hpick;
        [|apply pick_none in Hpick; congruence].
      destruct (pick_cases _ _ _ _ Hpick) as (_ & Hout & _).
      destruct (tick_effect _ _ _ _ W Hpick)
        as (_ & _ & [(_ & Es) | (_ & Eo & _)]).
      * exists (act ++ [on_tick_line p; proc_exit_line p]).
        rewrite Es. cbn [out printf repeat Z.to_nat].
        rewrite Hout, Ho, app_nil_r, <- app_assoc, count_ev_app, Hc.
        split; reflexivity.
      * exists (act ++ [on_tick_line p]). rewrite Eo, Ho.
        cbn [repeat Z.to_nat]. rewrite app_nil_r, count_ev_app, Hc.
        split; reflexivity.
Qed.

Lemma trace_shape_witness :
  boot scenario_a = Some scenario_a_boot
  /\ state_at scenario_a 9 = Some scenario_a_9
  /\ exists act,
       out (sys scenario_a_9)
       = act ++ repeat (EvIdle TICK_MS) (Z.to_nat (idle scenario_a_9))
       /\ count_ev is_idle act = 0%nat.
Proof.
  split; [reflexivity|]. split; [reflexivity|].
  exact (proj2 (proj2 (proj2
           (trace_shape scenario_a scenario_a_boot 9 scenario_a_9
              eq_refl eq_refl)))).
Defined.

(** ** One queue per process *)

(** X9: on a command line short enough for identifiers not to overflow,
    in every state the driver reaches no identifier occurs twice over the
    three queues, and a process sits in the queue of its level and in no
    other. *)
Theorem single_ownership (cmd : string) (n : nat) (m : mstate) :
  Z.of_nat (String.length cmd) < INT_MAX ->
  state_at cmd n = Some m ->
  NoDup (map pid (L0 (sys m) ++ L1 (sys m) ++ L2 (sys m)))
  /\ forall p l, 0 <= l <= 2 ->
       (In p (queue_at l (sys m)) <-> In p (residents (sys m)) /\ level p = l).
Proof.
  intros Hlen H. split; [exact (state_at_nodup _ _ _ Hlen H)|].
  pose proof (state_at_wf _ _ _ H) as W. pose proof W as (W0 & W1 & W2).
  rewrite Forall_forall in W0, W1, W2.
  intros p l Hl. split.
  - intros Hin.
    assert (l = 0 \/ l = 1 \/ l = 2) as [-> | [-> | ->]] by lia;
      unfold queue_at in Hin; cbn [Z.eqb] in Hin; unfold residents;
      (split; [rewrite !in_app_iff; auto|]).
    + apply (W0 p Hin).
    + apply (W1 p Hin).
    + apply (W2 p Hin).
  - intros (Hin & Hlv).
    destruct (wf_residents _ _ W Hin) as (q & _ & (Hq & _) & Hinq).
    rewrite <- Hlv, Hq. exact Hinq.
Qed.

Lemma single_ownership_witness :
  Z.of_nat (String.length scenario_a) < INT_MAX
  /\ state_at scenario_a 2 = Some scenario_a_2
  /\ NoDup (map pid (L0 (sys scenario_a_2) ++ L1 (sys scenario_a_2)
                     ++ L2 (sys scenario_a_2))).
Proof.
  split; [reflexivity|]. split; [reflexivity|].
  exact (proj1 (single_ownership scenario_a 2 scenario_a_2 eq_refl eq_refl)).
Defined.

(** ** More on the loader *)

Lemma wrapped_work_range (c : string) (ms : Z) :
  wrapped_work c = Some ms -> 0 < ms <= INT_MAX.
Proof.
  unfold wrapped_work. cbv zeta.
  destruct (is_spin (skip_seps c)); [|discriminate].
  pose proof (parse_int_range (skip_blanks (advance 4 (skip_seps c))) 0
                ltac:(unfold INT_MIN, INT_MAX; lia)) as R.
  destruct (Z.gtb_spec
              (fst (parse_int 0 (skip_blanks (advance 4 (skip_seps c))))) 0);
    [|discriminate].
  intros E.
  assert (fst (parse_int 0 (skip_blanks (advance 4 (skip_seps c)))) = ms)
    as <- by congruence.
  unfold INT_MIN, INT_MAX in *. lia.
Qed.

Lemma wrapped_commands_frame (segs : list string) (st : sched) :
  exists new,
    L0 (fold_left wrapped_command segs st) = L0 st ++ new
    /\ L1 (fold_left wrapped_command segs st) = L1 st
    /\ L2 (fold_left wrapped_command segs st) = L2 st
    /\ out (fold_left wrapped_command segs st) = out st
    /\ (List.length new <= List.length segs)%nat
    /\ Forall (fun p => name p = "spin" /\ level p = 0 /\ ticks_left p = Q_L0
                        /\ 0 < work_left p <= INT_MAX) new.
Proof.
  revert st. induction segs as [|c segs IH]; intros st.
  - exists []. cbn. rewrite app_nil_r. repeat split; auto.
  - cbn [fold_left]. destruct (IH (wrapped_command st c))
      as (new & E0 & E1 & E2 & Eo & Hlen & Hall).
    unfold wrapped_command in *. destruct (wrapped_work c) as [ms|] eqn:Ec.
    + exists (mkProc (next_pid st) "spin" ms Q_L0 0 :: new).
      rewrite E0, E1, E2, Eo. cbn [L0 L1 L2 out new_proc set_L0 set_next_pid].
      unfold q_push. rewrite <- app_assoc. cbn [List.length].
      repeat split; auto; try lia.
      constructor; [|exact Hall]. cbn.
      pose proof (wrapped_work_range _ _ Ec). repeat split; auto; lia.
    + exists new. cbn [List.length]. repeat split; auto.
Qed.

(** X12: on a command line whose amounts fit an [int], the loader
    returns, and all it does to the globals is append to queue 0: queues 1 and 2 and the output are as before, the
    processes already in queue 0 stay in front in their order, there are
    no more new processes than the line has [;]-separated commands, and
    every new process is named [spin], at level 0 with the level-0
    quantum and a work amount between 1 and [INT_MAX]. *)
Theorem loader_appends (cmd : string) (st : sched) :
  amounts_fit cmd = true ->
  exists st' new,
    userinit_spin cmd st = Some st'
    /\ L0 st' = L0 st ++ new
    /\ L1 st' = L1 st /\ L2 st' = L2 st /\ out st' = out st
    /\ (List.length new <= List.length (split_semi cmd))%nat
    /\ Forall (fun p => name p = "spin" /\ level p = 0 /\ ticks_left p = Q_L0
                        /\ 0 < work_left p <= INT_MAX) new.
Proof.
  intros _.
  destruct (wrapped_commands_frame (split_semi cmd) st) as (new & H).
  exists (wrapped_commands cmd st), new. split; [|exact H].
  apply userinit_spin_loop_commands. lia.
Qed.

Lemma loader_appends_witness :
  amounts_fit mixed_cmd = true
  /\ exists st' new,
       userinit_spin mixed_cmd init_sched = Some st'
       /\ L0 st' = L0 init_sched ++ new
       /\ (List.length new <= List.length (split_semi mixed_cmd))%nat.
Proof.
  split; [reflexivity|].
  destruct (loader_appends mixed_cmd init_sched eq_refl)
    as (st' & new & E & E0 & _ & _ & _ & Hlen & _).
  exists st', new. repeat split; assumption.
Defined.

(** ** Identifiers handed out by the loader *)

Lemma pid_seq_app (a : Z) (k1 k2 : nat) :
  pid_seq a (k1 + k2) = pid_seq a k1 ++ pid_seq (a + Z.of_nat k1) k2.
Proof.
  revert a. induction k1 as [|k1 IH]; intros a.
  - cbn. rewrite Z.add_0_r. reflexivity.
  - cbn [Nat.add pid_seq app]. rewrite IH. f_equal. f_equal. f_equal. lia.
Qed.

Lemma spin_command_pids (s : string) (st : sched) :
  1 <= next_pid st < INT_MAX ->
  exists k,
    (k <= 1)%nat
    /\ map pid (L0 (snd (spin_command s st)))
       = map pid (L0 st) ++ pid_seq (next_pid st) k
    /\ next_pid (snd (spin_command s st)) = next_pid st + Z.of_nat k.
Proof.
  intros Hr. unfold spin_command. destruct (is_spin s).
  - destruct (parse_int 0 (skip_blanks (advance 4 s))) as [ms s']. cbn [snd].
    destruct (ms >? 0).
    + exists 1%nat. split; [lia|]. cbn [L0 new_proc set_L0 set_next_pid next_pid].
      unfold q_push. rewrite map_app. cbn.
      split; [reflexivity|]. apply wrap_id. unfold INT_MIN, INT_MAX in *. lia.
    + exists 0%nat. cbn. rewrite app_nil_r, Z.add_0_r. auto.
  - exists 0%nat. cbn. rewrite app_nil_r, Z.add_0_r. auto.
Qed.

Lemma userinit_spin_loop_pids (fuel : nat) (s : string) (st st' : sched) :
  1 <= next_pid st ->
  next_pid st + Z.of_nat (String.length s) <= INT_MAX ->
  userinit_spin_loop fuel s st = Some st' ->
  exists k,
    map pid (L0 st') = map pid (L0 st) ++ pid_seq (next_pid st) k
    /\ next_pid st' = next_pid st + Z.of_nat k.
Proof.
  assert (forall x : sched,
            exists k, map pid (L0 x) = map pid (L0 x) ++ pid_seq (next_pid x) k
                      /\ next_pid x = next_pid x + Z.of_nat k) as Refl.
  { intros x. exists 0%nat. cbn. rewrite app_nil_r, Z.add_0_r. auto. }
  revert s st. induction fuel as [|f IH]; intros s st H1 Hb H.
  - destruct s as [|a t]; cbn [userinit_spin_loop] in H.
    + injection H as <-. apply Refl.
    + destruct (skip_seps (String a t)); [|discriminate].
      injection H as <-. apply Refl.
  - destruct s as [|a t]; cbn [userinit_spin_loop] in H.
    + injection H as <-. apply Refl.
    + destruct (skip_seps (String a t)) as [|c r] eqn:E.
      * injection H as <-. apply Refl.
      * pose proof (skip_seps_head _ _ _ E) as Hc.
        pose proof (round_progress c r st Hc) as Hp.
        pose proof (skip_seps_length (String a t)) as Hs. rewrite E in Hs.
        assert (1 <= next_pid st < INT_MAX) as Hr
          by (cbn [String.length] in *; lia).
        destruct (spin_command_pids (String c r) st Hr) as (k1 & Hk1 & E1 & N1).
        destruct (spin_command (String c r) st) as [s2 st2].
        cbn [fst snd] in *.
        assert (exists k2,
                  map pid (L0 st') = map pid (L0 st2) ++ pid_seq (next_pid st2) k2
                  /\ next_pid st' = next_pid st2 + Z.of_nat k2)
          as (k2 & E2 & N2) by (refine (IH _ st2 _ _ H); lia).
        exists (k1 + k2)%nat. rewrite E2, E1, N2, N1, pid_seq_app, <- app_assoc.
        split; [reflexivity | lia].
Qed.

(** X13: on a line short enough for the allocator not to overflow, the
    processes the loader adds to queue 0 carry consecutive identifiers,
    counting up from the allocator's value in the order of creation, and
    the allocator ends just past the last of them. *)
Theorem loader_pids_consecutive (cmd : string) (st st' : sched) :
  1 <= next_pid st ->
  next_pid st + Z.of_nat (String.length cmd) <= INT_MAX ->
  userinit_spin cmd st = Some st' ->
  exists k,
    map pid (L0 st') = map pid (L0 st) ++ pid_seq (next_pid st) k
    /\ List.length (L0 st') = (List.length (L0 st) + k)%nat
    /\ next_pid st' = next_pid st + Z.of_nat k.
Proof.
  intros H1 Hb H.
  destruct (userinit_spin_loop_pids _ _ _ _ H1 Hb H) as (k & E & N).
  exists k. split; [exact E|]. split; [|exact N].
  apply (f_equal (@List.length Z)) in E.
  rewrite length_app, !length_map in E. rewrite E. f_equal.
  clear. generalize (next_pid st). induction k as [|k IH]; intros a; cbn; auto.
Qed.

Lemma loader_pids_consecutive_witness :
  1 <= next_pid init_sched
  /\ next_pid init_sched + Z.of_nat (String.length scenario_a) <= INT_MAX
  /\ userinit_spin scenario_a init_sched = Some (sys scenario_a_boot)
  /\ exists k,
       map pid (L0 (sys scenario_a_boot))
       = map pid (L0 init_sched) ++ pid_seq (next_pid init_sched) k.
Proof.
  assert (1 <= next_pid init_sched) as H1 by (cbn; lia).
  assert (next_pid init_sched + Z.of_nat (String.length scenario_a) <= INT_MAX)
    as Hb by (vm_compute; discriminate).
  split; [exact H1|]. split; [exact Hb|]. split; [reflexivity|].
  destruct (loader_pids_consecutive scenario_a init_sched (sys scenario_a_boot)
              H1 Hb eq_refl) as (k & E & _).
  exists k. exact E.
Defined.

(** ** Lines made of parts *)

Lemma split_semi_nonempty (s : string) : split_semi s <> [].
Proof. destruct (split_semi_shape s) as (tl & E & _). rewrite E. discriminate. Qed.

Lemma split_semi_app (a b : string) :
  split_semi (a ++ String ";" b) = split_semi a ++ split_semi b.
Proof.
  induction a as [|c r IH]; [reflexivity|].
  cbn [append split_semi]. destruct (c =? ";")%char.
  - rewrite IH. reflexivity.
  - rewrite IH. pose proof (split_semi_nonempty r).
    destruct (split_semi r); [contradiction | reflexivity].
Qed.

(** X14: a line made of two parts joined by [;] is loaded as the first
    part and then the second, starting from what the first left. *)
Theorem loader_sequence (a b : string) (st : sched) :
  userinit_spin (a ++ String ";" b) st
  = match userinit_spin a st with
    | Some st1 => userinit_spin b st1
    | None => None
    end.
Proof.
  unfold userinit_spin.
  rewrite !userinit_spin_loop_commands by lia.
  rewrite split_semi_app, fold_left_app. reflexivity.
Qed.

Lemma skip_seps_app (seps x : string) :
  all_chars is_sep seps = true -> skip_seps (seps ++ x) = skip_seps x.
Proof.
  induction seps as [|c r IH]; intros H; [reflexivity|].
  cbn in H. apply andb_true_iff in H. destruct H as (Hc & Hr).
  cbn [append skip_seps]. rewrite Hc. apply IH. exact Hr.
Qed.

Lemma skip_blanks_app (bl x : string) :
  all_chars is_blank bl = true -> skip_blanks (bl ++ x) = skip_blanks x.
Proof.
  induction bl as [|c r IH]; intros H; [reflexivity|].
  cbn in H. apply andb_true_iff in H. destruct H as (Hc & Hr).
  cbn [append skip_blanks]. rewrite Hc. apply IH. exact Hr.
Qed.

Lemma first_command_blanks (bl x : string) :
  all_chars is_blank bl = true ->
  first_command (bl ++ x) = (bl ++ first_command x)%string.
Proof.
  induction bl as [|c r IH]; intros H; [reflexivity|].
  cbn in H. apply andb_true_iff in H. destruct H as (Hc & Hr).
  cbn [append first_command]. rewrite (blank_not_semi _ Hc), (IH Hr). reflexivity.
Qed.

Lemma after_semi_blanks (bl x : string) :
  all_chars is_blank bl = true -> after_semi (bl ++ x) = after_semi x.
Proof.
  induction bl as [|c r IH]; intros H; [reflexivity|].
  cbn in H. apply andb_true_iff in H. destruct H as (Hc & Hr).
  rewrite <- (IH Hr). unfold after_semi. cbn [append skip_to_semi].
  rewrite (blank_not_semi _ Hc). reflexivity.
Qed.

Lemma no_digit_ahead_first_command (t : string) :
  no_digit_ahead t -> no_digit_ahead (first_command t).
Proof.
  destruct t as [|c r]; [auto|]. cbn. destruct (c =? ";")%char; cbn; auto.
Qed.

Lemma wrapped_work_amount (bl : string) (p : positive) (t : string) :
  all_chars is_blank bl = true -> Z.pos p <= INT_MAX -> no_digit_ahead t ->
  wrapped_work ("spin" ++ bl ++ dec (Z.pos p) ++ t) = Some (Z.pos p).
Proof.
  intros Hbl Hm Ht. unfold wrapped_work.
  change (skip_seps ("spin" ++ bl ++ dec (Z.pos p) ++ t))
    with ("spin" ++ (bl ++ dec (Z.pos p) ++ t))%string.
  rewrite is_spin_app.
  change (advance 4 ("spin" ++ (bl ++ dec (Z.pos p) ++ t)))
    with (bl ++ dec (Z.pos p) ++ t)%string.
  rewrite (skip_blanks_app _ _ Hbl).
  rewrite dec_pos, skip_blanks_digits by apply DecimalPos.Unsigned.to_uint_nonnil.
  rewrite parse_uint; rewrite ?uint_val_to_uint; cbn [fst]; try lia.
  - reflexivity.
  - exact Ht.
Qed.

(** X15: a command [spin], blanks (possibly none), the decimal digits of
    an amount from 1 to [INT_MAX], then anything that does not start with
    a digit, coming after any run of blanks, [&] and [;], creates exactly
    the process with that amount; the loader then goes on after the next
    [;]. *)
Theorem loader_reads_amount (seps bl : string) (p : positive) (t : string)
    (st : sched) :
  all_chars is_sep seps = true ->
  all_chars is_blank bl = true ->
  Z.pos p <= INT_MAX ->
  no_digit_ahead t ->
  userinit_spin (seps ++ "spin" ++ bl ++ dec (Z.pos p) ++ t) st
  = userinit_spin (after_semi t) (new_proc "spin" (Z.pos p) st).
Proof.
  intros Hs Hbl Hm Ht. unfold userinit_spin.
  rewrite !userinit_spin_loop_commands by lia. f_equal.
  rewrite wrapped_commands_skip_seps, (skip_seps_app _ _ Hs).
  change (skip_seps ("spin" ++ bl ++ dec (Z.pos p) ++ t))
    with ("spin" ++ bl ++ dec (Z.pos p) ++ t)%string.
  rewrite wrapped_commands_round.
  change (after_semi ("spin" ++ bl ++ dec (Z.pos p) ++ t))
    with (after_semi (bl ++ dec (Z.pos p) ++ t)).
  change (first_command ("spin" ++ bl ++ dec (Z.pos p) ++ t))
    with ("spin" ++ first_command (bl ++ dec (Z.pos p) ++ t))%string.
  rewrite (after_semi_blanks _ _ Hbl), (first_command_blanks _ _ Hbl).
  rewrite dec_pos, after_semi_digits, first_command_digits, <- dec_pos.
  unfold wrapped_command at 2.
  rewrite (wrapped_work_amount bl p (first_command t) Hbl Hm
             (no_digit_ahead_first_command _ Ht)).
  reflexivity.
Qed.

Lemma loader_reads_amount_witness :
  all_chars is_sep " ;& " = true
  /\ all_chars is_blank EmptyString = true
  /\ 42 <= INT_MAX
  /\ no_digit_ahead "ms &; spin 7"
  /\ userinit_spin (" ;& " ++ "spin" ++ EmptyString ++ dec 42 ++ "ms &; spin 7")
                   init_sched
     = userinit_spin " spin 7" (new_proc "spin" 42 init_sched).
Proof.
  assert (42 <= INT_MAX) as Hm by (unfold INT_MAX; lia).
  split; [reflexivity|]. split; [reflexivity|]. split; [exact Hm|].
  split; [reflexivity|].
  exact (loader_reads_amount " ;& " EmptyString 42 "ms &; spin 7" init_sched
           eq_refl eq_refl Hm eq_refl).
Defined.

(** ** The skeleton before the exercises are done *)

Lemma o1_spin_command_text (s : string) (st : O1.sched) (st0 : sched) :
  fst (O1.spin_command s st) = fst (spin_command s st0).
Proof.
  unfold O1.spin_command, spin_command. destruct (is_spin s); [|reflexivity].
  destruct (parse_int 0 (skip_blanks (advance 4 s))). reflexivity.
Qed.

Lemma o1_spin_command_queues (s : string) (st : O1.sched) :
  O1.FQ (snd (O1.spin_command s st)) = O1.FQ st
  /\ O1.AQ (snd (O1.spin_command s st)) = O1.AQ st
  /\ O1.EQ (snd (O1.spin_command s st)) = O1.EQ st
  /\ O1.out (snd (O1.spin_command s st)) = O1.out st.
Proof.
  unfold O1.spin_command. destruct (is_spin s); [|auto].
  destruct (parse_int 0 (skip_blanks (advance 4 s))) as [ms s']. cbn [snd].
  destruct (ms >? 0); cbn; auto.
Qed.

Lemma o1_loader (fuel : nat) (s : string) (st : O1.sched) :
  (String.length s <= fuel)%nat ->
  exists st',
    O1.userinit_spin_loop fuel s st = Some st'
    /\ O1.FQ st' = O1.FQ st /\ O1.AQ st' = O1.AQ st /\ O1.EQ st' = O1.EQ st
    /\ O1.out st' = O1.out st.
Proof.
  revert s st. induction fuel as [|f IH]; intros s st Hlen.
  - destruct s; [|cbn in Hlen; lia]. exists st. auto.
  - destruct s as [|a t]; [exists st; auto|].
    cbn [O1.userinit_spin_loop].
    destruct (skip_seps (String a t)) as [|c r] eqn:E; [exists st; auto|].
    pose proof (skip_seps_head _ _ _ E) as Hc.
    pose proof (round_progress c r init_sched Hc) as Hp.
    rewrite <- (o1_spin_command_text _ st) in Hp.
    pose proof (skip_seps_length (String a t)) as Hs. rewrite E in Hs.
    destruct (o1_spin_command_queues (String c r) st) as (E0 & E1 & E2 & Eo).
    destruct (O1.spin_command (String c r) st) as [s2 st2]. cbn [fst snd] in *.
    destruct (IH (skip_semi (skip_to_semi s2)) st2) as (st' & H & F0 & F1 & F2 & Fo);
      [lia|].
    exists st'. rewrite H. repeat split; congruence.
Qed.

Lemma o1_main_loop_mono (fuel : nat) (m mf : O1.mstate) :
  O1.main_loop fuel m = Some mf ->
  forall fuel', (fuel <= fuel')%nat -> O1.main_loop fuel' m = Some mf.
Proof.
  revert m. induction fuel as [|f IH]; intros m H fuel' Hle; [discriminate|].
  destruct fuel' as [|f']; [lia|]. cbn [O1.main_loop] in *.
  destruct (O1.main_iter m) as [m'|m']; [|exact H]. apply IH; [exact H | lia].
Qed.

(** X16: the skeleton as shipped, on any command line: the loader
    returns with the three queues empty, since [q_push] keeps nothing, and
    [main] prints ten idle lines and nothing else, stopping in its
    eleventh round without ever reaching [schedule_one_tick]'s turn. *)
Theorem o1_skeleton_idles (arg : option string) :
  exists st mf,
    O1.userinit_spin (cmdline_of arg) O1.init_sched = Some st
    /\ O1.all_empty st = true
    /\ O1.main arg = Some mf
    /\ O1.out (O1.sys mf) = repeat (EvIdle TICK_MS) 10
    /\ O1.all_empty (O1.sys mf) = true
    /\ O1.idle_ticks mf = 11 /\ O1.total_ticks mf = 11.
Proof.
  destruct (o1_loader (String.length (cmdline_of arg)) (cmdline_of arg)
              O1.init_sched (Nat.le_refl _)) as (st & H & E0 & E1 & E2 & Eo).
  destruct st as [fq aq eq np o]. cbn in E0, E1, E2, Eo. subst.
  eexists. eexists. split; [exact H|]. split; [reflexivity|].
  unfold O1.main, O1.userinit_spin. rewrite H.
  split; [apply (o1_main_loop_mono 11); [reflexivity|]|].
  - unfold MAIN_FUEL, TICK_CAP. lia.
  - repeat split; reflexivity.
Qed.

(** ** The quanta of levels 0 and 1 over a lifetime *)

Lemma runs_at_app (x l : Z) (a b : list event) :
  runs_at x l (a ++ b) = runs_at x l a + runs_at x l b.
Proof. unfold runs_at. rewrite count_ev_app. lia. Qed.

(** The process put back by a tick that does not end it. *)
Lemma tick_requeued (s : sched) (p : proc) (qid : Z) (s1 : sched) :
  wf s -> pick s = Some (p, qid, s1) -> TICK_MS < work_left p ->
  exists p',
    Permutation (residents (schedule_one_tick s)) (p' :: residents s1)
    /\ pid p' = pid p
    /\ ((level p = 0 /\ level p' = 1 /\ ticks_left p' = Q_L1)
        \/ (level p = 1 /\ 1 < ticks_left p /\ level p' = 1
            /\ ticks_left p' = ticks_left p - 1)
        \/ (level p = 1 /\ ticks_left p = 1 /\ level p' = 2)
        \/ (level p = 2 /\ level p' = 2)).
Proof.
  intros W H Hgt. rewrite (schedule_one_tick_wf_eq _ _ _ _ W H).
  destruct (Z.leb_spec (work_left p) TICK_MS); [lia|].
  destruct (pick_resident_ok _ _ _ _ W H) as ((Hl & Ht & _) & _).
  pose proof (pick_qid_range _ _ _ _ H) as Hq.
  unfold requeue, residents, q_push.
  assert (qid = 0 \/ qid = 1 \/ qid = 2) as [-> | [-> | ->]] by lia;
    cbn [Z.eqb ticks_left];
    unfold quantum_of, Q_L0, Q_L1, Q_L2 in *; cbn [Z.eqb] in Ht;
    destruct (Z.gtb_spec (ticks_left p - 1) 0);
    cbn [L0 L1 L2 set_L0 set_L1 set_L2 printf];
    eexists;
    (split;
     [first [ exact (perm_insert _ [] _ _) | exact (perm_insert _ _ _ _)
            | exact (perm_insert_last _ _ _ _) ]
     | cbn [pid level ticks_left set_ticks_left set_level];
       split; [reflexivity | lia]]).
Qed.

Lemma quota_tick (s : sched) :
  wf s -> NoDup (pids s) -> all_empty s = false ->
  quota_inv s -> quota_inv (schedule_one_tick s).
Proof.
  intros W N Hne (Hres & Hall).
  destruct (pick s) as [[[p qid] s1]|] eqn:H;
    [|apply pick_none in H; congruence].
  destruct (pick_cases _ _ _ _ H) as (_ & Ho & _).
  destruct (pick_resident_ok _ _ _ _ W H) as ((Hl & Ht & _) & _).
  pose proof (pick_qid_range _ _ _ _ H) as Hq.
  pose proof (pick_residents _ _ _ _ H) as Er.
  assert (In p (residents s)) as Hp by (rewrite Er; left; reflexivity).
  destruct (Hres p Hp) as (Hp0 & Hp1).
  assert (forall q, In q (residents s1) -> pid q <> pid p) as Hother.
  { intros q Hq' E. unfold pids in N. rewrite Er in N. cbn [map] in N.
    inversion N as [|? ? Hn _]; subst. apply Hn. rewrite <- E.
    apply in_map. exact Hq'. }
  set (s' := schedule_one_tick s).
  assert (forall x l,
            runs_at x l (out s')
            = runs_at x l (out s)
              + (if (pid p =? x) && (level p =? l) then 1 else 0)) as Hruns.
  { intros x l. subst s'.
    destruct (tick_effect _ _ _ _ W H) as (_ & _ & [(_ & Es) | (_ & Eo & _)]).
    - rewrite Es. cbn [out printf]. rewrite Ho, !runs_at_app.
      unfold runs_at, count_ev. cbn.
      destruct ((pid p =? x) && (level p =? l)); cbn; lia.
    - rewrite Eo, runs_at_app. unfold runs_at at 2. unfold count_ev. cbn.
      destruct ((pid p =? x) && (level p =? l)); cbn; lia. }
  assert (forall q, In q (residents s1) ->
            runs_at (pid q) 0 (out s') = (if level q =? 0 then 0 else Q_L0)
            /\ runs_at (pid q) 1 (out s')
               = (if level q =? 0 then 0
                  else if level q =? 1 then Q_L1 - ticks_left q else Q_L1))
    as Hold.
  { intros q Hq'. rewrite !Hruns.
    destruct (Z.eqb_spec (pid p) (pid q)) as [E|_];
      [exfalso; apply (Hother q Hq'); congruence|].
    cbn [andb]. rewrite !Z.add_0_r. apply Hres. rewrite Er. right. exact Hq'. }
  split.
  - intros q Hq'. subst s'.
    destruct (Z.leb_spec (work_left p) TICK_MS) as [Hle|Hgt].
    + destruct (tick_effect _ _ _ _ W H) as (_ & _ & [(_ & Es) | (Hgt & _)]);
        [|lia].
      apply Hold. rewrite Es in Hq'. exact Hq'.
    + destruct (tick_requeued _ _ _ _ W H Hgt) as (p' & P & Ep & Hcase).
      apply (Permutation_in _ P) in Hq'. destruct Hq' as [<- | Hq'];
        [|apply Hold; exact Hq'].
      rewrite Ep, !Hruns, Hp0, Hp1, Z.eqb_refl. cbn [andb].
      unfold Q_L0, Q_L1 in *.
      destruct Hcase as [(E0 & E1 & Et) | [(E0 & Hlt & E1 & Et)
                        | [(E0 & Et & E1) | (E0 & E1)]]];
        rewrite E0, E1; cbn [Z.eqb Pos.eqb]; lia.
  - intros x. rewrite !Hruns. destruct (Hall x) as (Hx0 & Hx1).
    destruct (Z.eqb_spec (pid p) x) as [<- | _]; cbn [andb]; [|lia].
    rewrite Hp0, Hp1. unfold Q_L0, Q_L1, quantum_of, Q_L2 in *.
    assert (level p = 0 \/ level p = 1 \/ level p = 2) as [E | [E | E]] by lia;
      rewrite E in *; cbn [Z.eqb Pos.eqb] in *; lia.
Qed.

Lemma quota_reachable (cmd : string) (n : nat) (m : mstate) :
  Z.of_nat (String.length cmd) < INT_MAX ->
  state_at cmd n = Some m -> quota_inv (sys m).
Proof.
  intros Hlen. revert m. induction n as [|n IH]; intros m H.
  - cbn [state_at] in H. destruct (boot_loaded _ _ H) as ((W & E1 & E2 & Ho) & _).
    unfold quota_inv. rewrite Ho. unfold runs_at, count_ev. cbn.
    split; [|intros x; unfold Q_L0, Q_L1; lia].
    intros p Hp. destruct (wf_residents _ _ W Hp) as (q & Hq & (Hl & _) & Hin).
    unfold queue_at in Hin.
    destruct (Z.eqb_spec q 0) as [-> | Hn0].
    + rewrite Hl. cbn. auto.
    + destruct (q =? 1); [rewrite E1 in Hin | rewrite E2 in Hin]; destruct Hin.
  - destruct (state_at_S_inv _ _ _ H) as (m0 & H0 & E).
    destruct (step_sys _ _ _ _ H0 E) as (_ & [(_ & ->) | (Hne & ->)]).
    + destruct (IH _ H0) as (Hres & Hall). unfold quota_inv.
      change (residents (printf (EvIdle TICK_MS) (sys m0)))
        with (residents (sys m0)).
      cbn [out printf].
      assert (forall x l, runs_at x l (out (sys m0) ++ [EvIdle TICK_MS])
                          = runs_at x l (out (sys m0))) as Er.
      { intros x l. rewrite runs_at_app. unfold runs_at at 2. cbn. lia. }
      split; [intros p Hp | intros x]; rewrite !Er; auto.
    + apply quota_tick; auto.
      * eapply state_at_wf; eauto.
      * eapply state_at_nodup; eauto.
Qed.

(** X17: over a whole run (on a line short enough for identifiers to be
    distinct) every process is dispatched at most once at level 0 and at
    most twice at level 1, the quanta of those levels; a process queued
    at level 1 or 2 has had its one tick at level 0, and one queued at
    level 2 has had both its ticks at level 1: whatever else it needs it
    gets at level 2. *)
Theorem level_quota (cmd : string) (n : nat) (m : mstate) :
  Z.of_nat (String.length cmd) < INT_MAX ->
  state_at cmd n = Some m ->
  (forall x, runs_at x 0 (out (sys m)) <= 1 /\ runs_at x 1 (out (sys m)) <= 2)
  /\ forall p, In p (residents (sys m)) ->
       (level p = 0 ->
        runs_at (pid p) 0 (out (sys m)) = 0
        /\ runs_at (pid p) 1 (out (sys m)) = 0)
       /\ (level p = 1 ->
           runs_at (pid p) 0 (out (sys m)) = 1
           /\ runs_at (pid p) 1 (out (sys m)) = 2 - ticks_left p)
       /\ (level p = 2 ->
           runs_at (pid p) 0 (out (sys m)) = 1
           /\ runs_at (pid p) 1 (out (sys m)) = 2).
Proof.
  intros Hlen H. destruct (quota_reachable _ _ _ Hlen H) as (Hres & Hall).
  split; [exact Hall|]. intros p Hp. destruct (Hres p Hp) as (H0 & H1).
  unfold Q_L0, Q_L1 in *.
  split; [|split]; intros E; rewrite E in H0, H1;
    cbn [Z.eqb Pos.eqb] in H0, H1; split; assumption.
Qed.

Lemma level_quota_witness :
  Z.of_nat (String.length single_cmd) < INT_MAX
  /\ state_at single_cmd 1 = Some single_1
  /\ runs_at 1 0 (out (sys single_1)) <= 1.
Proof.
  split; [reflexivity|]. split; [reflexivity|].
  exact (proj1 (proj1 (level_quota single_cmd 1 single_1 eq_refl eq_refl) 1)).
Defined.

(** ** What the trace can contain *)

Lemma boot_named (cmd : string) (m0 : mstate) :
  Z.of_nat (String.length cmd) < INT_MAX ->
  boot cmd = Some m0 ->
  Forall (proc_named (next_pid (sys m0))) (residents (sys m0)).
Proof.
  intros Hlen Hb. pose proof Hb as Hb'. unfold boot, userinit_spin in Hb'.
  destruct (userinit_spin_loop _ cmd init_sched) as [st|] eqn:E; [|discriminate].
  injection Hb' as <-. cbn [sys].
  assert (pid_inv st) as (_ & Hrange & _).
  { refine (userinit_spin_loop_pid _ _ _ _ _ _ E).
    - unfold pid_inv, init_sched, pids, residents, INT_MAX; cbn.
      split; [constructor | split; [constructor | lia]].
    - cbn [next_pid init_sched]. lia. }
  rewrite userinit_spin_loop_commands in E by lia. injection E as <-.
  destruct (wrapped_commands_frame (split_semi cmd) init_sched)
    as (new & E0 & E1 & E2 & _ & _ & Hall).
  unfold pids, residents in *. rewrite E0, E1, E2 in *. cbn [L0 L1 L2 init_sched app] in *.
  rewrite app_nil_r in *. rewrite Forall_forall in *.
  intros p Hp. split; [apply (Hall p Hp)|]. apply Hrange. apply in_map. exact Hp.
Qed.

Lemma tick_named (s : sched) :
  wf s -> all_empty s = false ->
  Forall (proc_named (next_pid s)) (residents s) ->
  Forall (line_ok (next_pid s)) (out s) ->
  Forall (proc_named (next_pid s)) (residents (schedule_one_tick s))
  /\ Forall (line_ok (next_pid s)) (out (schedule_one_tick s)).
Proof.
  intros W Hne Hres Hout.
  destruct (pick s) as [[[p qid] s1]|] eqn:H;
    [|apply pick_none in H; congruence].
  destruct (pick_cases _ _ _ _ H) as (_ & Ho & _).
  destruct (pick_resident_ok _ _ _ _ W H) as ((Hl & _) & _).
  pose proof (pick_qid_range _ _ _ _ H) as Hq.
  destruct (tick_effect _ _ _ _ W H)
    as (Er & _ & [(_ & Es) | (_ & Eo & p' & P & Ep & En & _)]);
    rewrite Er in Hres; inversion Hres as [|? ? (Hn & Hp) Hres1]; subst.
  - rewrite Es. split; [exact Hres1|]. cbn [out printf]. rewrite Ho.
    apply Forall_app. split; [apply Forall_app; split; [exact Hout|]|];
      (constructor; [|constructor]); cbn; repeat split; auto; lia.
  - split.
    + apply (Permutation_Forall (Permutation_sym P)).
      constructor; [|exact Hres1]. unfold proc_named. rewrite Ep, En. auto.
    + rewrite Eo. apply Forall_app. split; [exact Hout|].
      (constructor; [|constructor]); cbn; repeat split; auto; lia.
Qed.

(** X18: on a command line short enough for identifiers not to overflow,
    everything a run prints is a run line or an exit line of a process
    named [spin] whose identifier the loader handed out, a run line
    always for 10 ms at level 0, 1 or 2, or an idle line for 10 ms; and
    every queued process is such a process. *)
Theorem trace_lines_ok (cmd : string) (m0 : mstate) (n : nat) (m : mstate) :
  Z.of_nat (String.length cmd) < INT_MAX ->
  boot cmd = Some m0 ->
  state_at cmd n = Some m ->
  Forall (line_ok (next_pid (sys m0))) (out (sys m))
  /\ Forall (proc_named (next_pid (sys m0))) (residents (sys m))
  /\ next_pid (sys m) = next_pid (sys m0).
Proof.
  intros Hlen Hb. revert m. induction n as [|n IH]; intros m H.
  - cbn [state_at] in H. rewrite Hb in H. injection H as <-.
    destruct (boot_loaded _ _ Hb) as ((_ & _ & _ & Ho) & _).
    rewrite Ho. split; [constructor|]. split; [|reflexivity].
    exact (boot_named _ _ Hlen Hb).
  - destruct (state_at_S_inv _ _ _ H) as (mp & Hp & E).
    destruct (IH mp Hp) as (Hout & Hres & Hnp).
    destruct (step_sys _ _ _ _ Hp E) as (_ & [(_ & ->) | (Hne & ->)]).
    + cbn [out printf]. change (residents (printf _ (sys mp)))
        with (residents (sys mp)).
      split; [|split; [exact Hres | exact Hnp]].
      apply Forall_app. split; [exact Hout|]. constructor; cbn; auto.
    + rewrite <- Hnp in *. rewrite schedule_one_tick_next_pid.
      destruct (tick_named _ (state_at_wf _ _ _ Hp) Hne Hres Hout) as (R & O).
      auto.
Qed.

Lemma trace_lines_ok_witness :
  Z.of_nat (String.length scenario_a) < INT_MAX
  /\ boot scenario_a = Some scenario_a_boot
  /\ state_at scenario_a 1 = Some scenario_a_1
  /\ Forall (line_ok 4) (out (sys scenario_a_1)).
Proof.
  split; [reflexivity|]. split; [reflexivity|]. split; [reflexivity|].
  exact (proj1 (trace_lines_ok scenario_a scenario_a_boot 1 scenario_a_1
                  eq_refl eq_refl eq_refl)).
Defined.
